(** * mtp_sdk: schema introspection for Click command trees

    A shallow embedding of [mtp_sdk/introspect.py] and [mtp_sdk/types.py],
    followed by the properties of the type inferencer, the argument
    builder, the command tree walker and the canonical serializer. *)

From Stdlib Require Import String Ascii ZArith List Bool Lia.
From stdpp Require Import base option list strings gmap.

Set Warnings "-register-all".

Local Open Scope string_scope.
Local Open Scope list_scope.

(** ** Python values

    The values that flow through the engine untyped ([Any] in the
    source): parameter defaults, free-form maps and the output of
    [to_dict].  A dict keeps its insertion order, so it is an association
    list; a dataclass instance is its class name with its fields in
    declaration order. *)

Inductive PyVal : Type :=
| VNone
| VSentinel                                  (* click's internal UNSET marker *)
| VBool (b : bool)
| VInt (z : Z)
| VFloat (bits : Z)                          (* IEEE 754 binary64 bit pattern *)
| VStr (s : string)
| VTuple (xs : list PyVal)
| VList (xs : list PyVal)
| VDict (kvs : list (string * PyVal))
| VData (cls : string) (fs : list (string * PyVal)).

(** [x is None], [x is False], [x == ()]. *)
Definition is_None (v : PyVal) : bool :=
  match v with VNone => true | _ => false end.

Definition is_False (v : PyVal) : bool :=
  match v with VBool false => true | _ => false end.

Definition is_empty_tuple (v : PyVal) : bool :=
  match v with VTuple [] => true | _ => false end.

(** [type(value).__name__ == "Sentinel"] *)
Definition _is_sentinel (value : PyVal) : bool :=
  match value with VSentinel => true | _ => false end.

(** Truthiness of a string, and [s or ""] on an optional string. *)
Definition str_truthy (s : string) : bool :=
  match s with EmptyString => false | _ => true end.

Definition or_empty (o : option string) : string :=
  match o with Some s => s | None => "" end.

(** ** The Click parameter model *)

Inductive ParamType : Type :=
| StringParamType
| IntParamType
| IntRange
| FloatParamType
| FloatRange
| BoolParamType
| Choice (choices : list string)
| Path
| OtherParamType (type_name : string).

Inductive ParamKind : Type := KOption | KArgument | KParameter.

(** [is_flag], [multiple], [count], [opts], [secondary_opts] and [help]
    exist on [click.Option] only; the source reads them behind an
    [isinstance(param, click.Option)] test, and so does the model. *)
Record Param : Type := mkParam {
  p_kind : ParamKind;
  p_name : option string;
  p_type : ParamType;
  p_nargs : Z;
  p_required : bool;
  p_default : PyVal;
  p_hidden : bool;
  p_is_flag : bool;
  p_multiple : bool;
  p_count : bool;
  p_opts : list string;
  p_secondary_opts : list string;
  p_help : option string
}.

Definition is_Option (param : Param) : bool :=
  match p_kind param with KOption => true | _ => false end.

Definition is_Argument (param : Param) : bool :=
  match p_kind param with KArgument => true | _ => false end.

(** ** types.py: the schema entities *)

Record Example_ : Type := mkExample {
  ex_description : string;
  ex_command : string;
  ex_output : option string
}.

Record IODescriptor : Type := mkIO {
  io_content_type : option string;
  io_description : option string;
  io_schema : option (list (string * PyVal))
}.

Record ArgDescriptor : Type := mkArg {
  ad_name : string;
  ad_type : string;
  ad_description : option string;
  ad_required : option bool;
  ad_default : PyVal;                       (* [VNone] when unset *)
  ad_values : option (list string)
}.

Record CommandDescriptor : Type := mkCmdDesc {
  cd_name : string;
  cd_description : string;
  cd_args : option (list ArgDescriptor);
  cd_stdin : option IODescriptor;
  cd_stdout : option IODescriptor;
  cd_examples : option (list Example_)
}.

Record AuthConfig : Type := mkAuth {
  auth_type : string;
  auth_description : option string;
  auth_extra : option (list (string * PyVal))
}.

Record ToolSchema : Type := mkSchema {
  ts_name : string;
  ts_version : string;
  ts_description : string;
  ts_spec_version : string;
  ts_commands : list CommandDescriptor;
  ts_auth : option AuthConfig
}.

Record CommandAnnotation : Type := mkAnn {
  ann_stdin : option IODescriptor;
  ann_stdout : option IODescriptor;
  ann_examples : option (list Example_);
  ann_arg_types : option (gmap string string);
  ann_arg_descriptions : option (gmap string string)
}.

Record DescribeOptions : Type := mkOptions {
  opt_version : option string;
  opt_commands : option (gmap string CommandAnnotation);
  opt_auth : option AuthConfig
}.

(** ** introspect.py: type inference *)

Definition MTP_SPEC_VERSION : string := "2026-02-07".

(** [type_overrides and name in type_overrides], then [type_overrides[name]] *)
Definition override_of (type_overrides : option (gmap string string))
    (name : string) : option string :=
  match type_overrides with
  | Some m => m !! name
  | None => None
  end.

Definition _infer_type (param : Param)
    (type_overrides : option (gmap string string))
    : string * option (list string) :=
  let name := or_empty (p_name param) in
  match override_of type_overrides name with
  | Some t => (t, None)
  | None =>
    let pt := p_type param in
    if is_Option param && p_is_flag param then ("boolean", None)
    else match pt with
    | Choice choices => ("enum", Some choices)
    | _ =>
      if (p_nargs param =? -1)%Z || (is_Option param && p_multiple param)
      then ("array", None)
      else match pt with
      | IntParamType | IntRange => ("integer", None)
      | FloatParamType | FloatRange => ("number", None)
      | BoolParamType => ("boolean", None)
      | Path => ("path", None)
      | _ =>
        if is_Option param && p_count param then ("integer", None)
        else ("string", None)
      end
    end
  end.

(** ** introspect.py: parameter filtering and naming *)

Definition _FILTERED_NAMES : list string := ["help"; "version"; "mtp_describe"].

Definition _is_filtered_param (param : Param) : bool :=
  if p_hidden param then true
  else
    let name := or_empty (p_name param) in
    if bool_decide (name ∈ _FILTERED_NAMES) then true else false.

(** [max(opts, key=len)]: the first element of maximal length. *)
Fixpoint max_by_len (best : string) (rest : list string) : string :=
  match rest with
  | [] => best
  | x :: rest' =>
    if (String.length best <? String.length x)%nat
    then max_by_len x rest'
    else max_by_len best rest'
  end.

Definition _option_display_name (param : Param) : string :=
  let opts := p_opts param ++ p_secondary_opts param in
  match opts with
  | o :: rest => max_by_len o rest
  | [] => or_empty (p_name param)
  end.

(** ** Python string methods used by the engine

    Strings are byte strings; [str.strip] removes the ASCII characters
    for which [str.isspace] holds. *)

Definition is_space (c : ascii) : bool :=
  let n := nat_of_ascii c in
  ((9 <=? n) && (n <=? 13) || (28 <=? n) && (n <=? 32))%nat.

Fixpoint lstrip (s : string) : string :=
  match s with
  | String c r => if is_space c then lstrip r else s
  | EmptyString => EmptyString
  end.

Fixpoint rstrip (s : string) : string :=
  match s with
  | EmptyString => EmptyString
  | String c r =>
    match rstrip r with
    | EmptyString => if is_space c then EmptyString else String c EmptyString
    | r' => String c r'
    end
  end.

Definition strip (s : string) : string := rstrip (lstrip s).

(** [s.split("\n")[0]] *)
Fixpoint first_line (s : string) : string :=
  match s with
  | EmptyString => EmptyString
  | String c r =>
    if Ascii.eqb c "010"%char then EmptyString else String c (first_line r)
  end.

(** [s.startswith("-")] *)
Definition starts_with_dash (s : string) : bool :=
  match s with
  | String c _ => Ascii.eqb c "-"%char
  | EmptyString => false
  end.

(** ** The Click command model

    A node is a bare [BaseCommand], a [Command] or a [Group] (itself a
    [Command]).  A group carries, in the order [list_commands] returns
    them, the sub-command names paired with what [get_command] answers
    for each. *)

Record CmdInfo : Type := mkInfo {
  c_name : option string;
  c_help : option string;
  c_hidden : bool;
  c_params : list Param
}.

Inductive Cmd : Type :=
| BaseCommand (name : option string) (hidden : bool)
| Command (info : CmdInfo)
| Group (info : CmdInfo) (subs : list (string * option Cmd)).

(** [getattr(cmd, "hidden", False)] *)
Definition cmd_hidden (cmd : Cmd) : bool :=
  match cmd with
  | BaseCommand _ h => h
  | Command i | Group i _ => c_hidden i
  end.

(** The attributes read behind [isinstance(cmd, click.Command)]. *)
Definition cmd_info (cmd : Cmd) : option CmdInfo :=
  match cmd with
  | BaseCommand _ _ => None
  | Command i | Group i _ => Some i
  end.

Section Engine.

(** Python's built-in [int(str)] and [float(str)]; [None] stands for the
    [ValueError] the source catches. *)
Variable py_int : string -> option Z.
Variable py_float : string -> option Z.

(** ** introspect.py: the argument builder *)

Definition coerce_default (mtp_type : string) (default : PyVal) : PyVal :=
  match default with
  | VStr s =>
    if String.eqb mtp_type "integer" then
      match py_int s with Some z => VInt z | None => default end
    else if String.eqb mtp_type "number" then
      match py_float s with Some f => VFloat f | None => default end
    else default
  | _ => default
  end.

(** The guard of the default rule. *)
Definition keeps_default (param : Param) : bool :=
  let default := p_default param in
  negb (is_None default)
  && negb (is_empty_tuple default)
  && negb (_is_sentinel default)
  && negb (is_Option param && p_is_flag param && is_False default).

Definition _extract_arg (param : Param)
    (type_overrides arg_descriptions : option (gmap string string))
    : ArgDescriptor :=
  let '(mtp_type, values) := _infer_type param type_overrides in
  let name :=
    if is_Option param then _option_display_name param
    else or_empty (p_name param) in
  let desc :=
    if is_Option param then p_help param
    else match arg_descriptions, p_name param with
         | Some m, Some n => if str_truthy n then m !! n else None
         | _, _ => None
         end in
  {| ad_name := name;
     ad_type := mtp_type;
     ad_description :=
       match desc with
       | Some d => if str_truthy d then Some d else None
       | None => None
       end;
     ad_values :=
       match values with
       | Some (v :: vs) => Some (v :: vs)
       | _ => None
       end;
     ad_required :=
       if is_Option param || is_Argument param
       then Some (p_required param) else None;
     ad_default :=
       if keeps_default param
       then coerce_default mtp_type (p_default param)
       else VNone |}.

(** ** introspect.py: building one command descriptor *)

Definition short_help (help : option string) : string :=
  let help_text := or_empty help in
  if str_truthy help_text then strip (first_line (strip help_text))
  else help_text.

(** The loop over [cmd.params]. *)
Definition collect_args (params : list Param)
    (type_overrides arg_descriptions : option (gmap string string))
    : list ArgDescriptor :=
  map (fun param => _extract_arg param type_overrides arg_descriptions)
      (filter (fun param => _is_filtered_param param = false) params).

Definition positional_of (args : list ArgDescriptor) : list ArgDescriptor :=
  filter (fun a => starts_with_dash (ad_name a) = false) args.

Definition options_of (args : list ArgDescriptor) : list ArgDescriptor :=
  filter (fun a => starts_with_dash (ad_name a) = true) args.

Definition _build_command (cmd : Cmd) (name : string)
    (annotation : option CommandAnnotation) : CommandDescriptor :=
  let help_text :=
    match cmd_info cmd with
    | Some i => short_help (c_help i)
    | None => ""
    end in
  let type_overrides := annotation ≫= ann_arg_types in
  let arg_descriptions := annotation ≫= ann_arg_descriptions in
  let args :=
    match cmd_info cmd with
    | Some i => collect_args (c_params i) type_overrides arg_descriptions
    | None => []
    end in
  {| cd_name := name;
     cd_description := help_text;
     cd_args :=
       match args with
       | [] => None
       | _ => Some (positional_of args ++ options_of args)
       end;
     cd_stdin := annotation ≫= ann_stdin;
     cd_stdout := annotation ≫= ann_stdout;
     cd_examples :=
       match annotation ≫= ann_examples with
       | Some (e :: es) => Some (e :: es)
       | _ => None
       end |}.

(** ** introspect.py: the command tree walker *)

(** [parent_path or "_root"] and the f-string that extends a path. *)
Definition path_truthy (parent_path : option string) : bool :=
  match parent_path with Some s => str_truthy s | None => false end.

Definition leaf_name (parent_path : option string) : string :=
  if path_truthy parent_path then or_empty parent_path else "_root".

Definition sub_path (parent_path : option string) (sn : string) : string :=
  if path_truthy parent_path then or_empty parent_path +:+ " " +:+ sn else sn.

(** [annotations.get(name) if annotations else None] *)
Definition annotation_for (annotations : option (gmap string CommandAnnotation))
    (name : string) : option CommandAnnotation :=
  match annotations with
  | Some m => m !! name
  | None => None
  end.

(** [sub and not getattr(sub, "hidden", False)] *)
Definition is_visible (entry : string * option Cmd) : bool :=
  match snd entry with
  | Some sub => negb (cmd_hidden sub)
  | None => false
  end.

Fixpoint _walk_commands (cmd : Cmd)
    (annotations : option (gmap string CommandAnnotation))
    (parent_path : option string) {struct cmd} : list CommandDescriptor :=
  let leaf :=
    let name := leaf_name parent_path in
    [_build_command cmd name (annotation_for annotations name)] in
  match cmd with
  | Group _ subs =>
    if existsb is_visible subs then
      (fix results (entries : list (string * option Cmd))
          : list CommandDescriptor :=
         match entries with
         | [] => []
         | (sn, Some sub) :: rest =>
           if cmd_hidden sub then results rest
           else _walk_commands sub annotations
                  (Some (sub_path parent_path sn)) ++ results rest
         | (_, None) :: rest => results rest
         end) subs
    else leaf
  | _ => leaf
  end.

(** ** introspect.py: schema assembly *)

Definition generate_schema (cli : Cmd) (options : option DescribeOptions)
    : ToolSchema :=
  let name :=
    match cmd_info cli with
    | Some i => or_empty (c_name i)
    | None => ""
    end in
  let version :=
    match options ≫= opt_version with
    | Some v => if str_truthy v then v else ""
    | None => ""
    end in
  let description :=
    match cmd_info cli with
    | Some i => short_help (c_help i)
    | None => ""
    end in
  let commands := _walk_commands cli (options ≫= opt_commands) None in
  {| ts_name := name;
     ts_version := version;
     ts_description := description;
     ts_spec_version := MTP_SPEC_VERSION;
     ts_commands := commands;
     ts_auth := options ≫= opt_auth |}.

End Engine.

(** ** types.py: the canonical serializer *)

(** [name.split("_")] *)
Fixpoint split_underscore (s : string) : list string :=
  match s with
  | EmptyString => [EmptyString]
  | String c r =>
    if Ascii.eqb c "_"%char then EmptyString :: split_underscore r
    else match split_underscore r with
         | part :: parts => String c part :: parts
         | [] => [String c EmptyString]
         end
  end.

Definition upper_char (c : ascii) : ascii :=
  let n := nat_of_ascii c in
  if ((97 <=? n) && (n <=? 122))%nat then ascii_of_nat (n - 32) else c.

Definition lower_char (c : ascii) : ascii :=
  let n := nat_of_ascii c in
  if ((65 <=? n) && (n <=? 90))%nat then ascii_of_nat (n + 32) else c.

Fixpoint lower (s : string) : string :=
  match s with
  | EmptyString => EmptyString
  | String c r => String (lower_char c) (lower r)
  end.

(** [str.capitalize] *)
Definition capitalize (s : string) : string :=
  match s with
  | EmptyString => EmptyString
  | String c r => String (upper_char c) (lower r)
  end.

Definition _snake_to_camel (name : string) : string :=
  match split_underscore name with
  | first :: parts => first +:+ String.concat "" (map capitalize parts)
  | [] => ""
  end.

(** Python dict operations on insertion-ordered association lists:
    [d[k] = v], [del d[k]], [d.get(k)]. *)
Fixpoint dict_set (k : string) (v : PyVal) (d : list (string * PyVal))
    : list (string * PyVal) :=
  match d with
  | [] => [(k, v)]
  | (k', v') :: rest =>
    if String.eqb k k' then (k, v) :: rest
    else (k', v') :: dict_set k v rest
  end.

Fixpoint dict_del (k : string) (d : list (string * PyVal))
    : list (string * PyVal) :=
  match d with
  | [] => []
  | (k', v') :: rest =>
    if String.eqb k k' then rest else (k', v') :: dict_del k rest
  end.

Fixpoint dict_get (k : string) (d : list (string * PyVal)) : option PyVal :=
  match d with
  | [] => None
  | (k', v') :: rest => if String.eqb k k' then Some v' else dict_get k rest
  end.

(** [for k, v in extra.items(): result[k] = v] *)
Definition dict_update (result extra : list (string * PyVal))
    : list (string * PyVal) :=
  fold_left (fun r kv => dict_set (fst kv) (snd kv) r) extra result.

(** [to_dict].  The flattening branch reads [obj.extra]; for an
    [AuthConfig] that is [None] or a dict, and only a non-empty dict is
    truthy. *)
Fixpoint to_dict (obj : PyVal) : PyVal :=
  match obj with
  | VList items => VList (map to_dict items)
  | VData cls fs =>
    let result :=
      (fix fields_loop (fs : list (string * PyVal))
           (result : list (string * PyVal)) : list (string * PyVal) :=
         match fs with
         | [] => result
         | (f_name, val) :: rest =>
           match val with
           | VNone => fields_loop rest result
           | VList items =>
             fields_loop rest
               (dict_set (_snake_to_camel f_name)
                  (VList (map to_dict items)) result)
           | VData _ _ =>
             fields_loop rest
               (dict_set (_snake_to_camel f_name) (to_dict val) result)
           | _ =>
             fields_loop rest (dict_set (_snake_to_camel f_name) val result)
           end
         end) fs [] in
    if String.eqb cls "AuthConfig" then
      match dict_get "extra" fs with
      | Some (VDict (kv :: kvs)) =>
        VDict (dict_update (dict_del "extra" result) (kv :: kvs))
      | _ => VDict result
      end
    else VDict result
  | _ => obj
  end.

(** The dataclass instances behind the records of the data model. *)
Definition of_opt_str (o : option string) : PyVal :=
  match o with Some s => VStr s | None => VNone end.

Definition of_opt_dict (o : option (list (string * PyVal))) : PyVal :=
  match o with Some d => VDict d | None => VNone end.

Definition obj_of_example (e : Example_) : PyVal :=
  VData "Example"
    [("description", VStr (ex_description e));
     ("command", VStr (ex_command e));
     ("output", of_opt_str (ex_output e))].

Definition obj_of_io (io : IODescriptor) : PyVal :=
  VData "IODescriptor"
    [("content_type", of_opt_str (io_content_type io));
     ("description", of_opt_str (io_description io));
     ("schema", of_opt_dict (io_schema io))].

Definition obj_of_arg (a : ArgDescriptor) : PyVal :=
  VData "ArgDescriptor"
    [("name", VStr (ad_name a));
     ("type", VStr (ad_type a));
     ("description", of_opt_str (ad_description a));
     ("required", match ad_required a with Some b => VBool b | None => VNone end);
     ("default", ad_default a);
     ("values", match ad_values a with
                | Some vs => VList (map VStr vs)
                | None => VNone
                end)].

Definition obj_of_command (c : CommandDescriptor) : PyVal :=
  VData "CommandDescriptor"
    [("name", VStr (cd_name c));
     ("description", VStr (cd_description c));
     ("args", match cd_args c with
              | Some args => VList (map obj_of_arg args)
              | None => VNone
              end);
     ("stdin", match cd_stdin c with Some io => obj_of_io io | None => VNone end);
     ("stdout", match cd_stdout c with Some io => obj_of_io io | None => VNone end);
     ("examples", match cd_examples c with
                  | Some es => VList (map obj_of_example es)
                  | None => VNone
                  end)].

Definition obj_of_auth (a : AuthConfig) : PyVal :=
  VData "AuthConfig"
    [("type", VStr (auth_type a));
     ("description", of_opt_str (auth_description a));
     ("extra", of_opt_dict (auth_extra a))].

Definition obj_of_schema (s : ToolSchema) : PyVal :=
  VData "ToolSchema"
    [("name", VStr (ts_name s));
     ("version", VStr (ts_version s));
     ("description", VStr (ts_description s));
     ("spec_version", VStr (ts_spec_version s));
     ("commands", VList (map obj_of_command (ts_commands s)));
     ("auth", match ts_auth s with Some a => obj_of_auth a | None => VNone end)].

(** ** Reference readings used to state the properties *)

(** The precedence list of the type inferencer, one guard per rule with
    the pair the rule yields, in the order the rules are listed. *)
Definition is_choice (pt : ParamType) : bool :=
  match pt with Choice _ => true | _ => false end.










(** An instance of [int(str)] on plain decimal digit strings, and of a
    [float(str)] that rejects everything, for the worked examples. *)
Fixpoint digits_value (acc : Z) (s : string) : option Z :=
  match s with
  | EmptyString => Some acc
  | String c r =>
    let n := nat_of_ascii c in
    if ((48 <=? n) && (n <=? 57))%nat
    then digits_value (10 * acc + Z.of_nat (n - 48)) r
    else None
  end.

Definition decimal_int (s : string) : option Z :=
  match s with
  | EmptyString => None
  | _ => digits_value 0 s
  end.

Definition no_float (s : string) : option Z := None.

(** A plain [click.Option] and a plain [click.Argument], to be varied. *)
Definition plain_option (name : string) (opts : list string) : Param :=
  {| p_kind := KOption; p_name := Some name; p_type := StringParamType;
     p_nargs := 1; p_required := false; p_default := VNone;
     p_hidden := false; p_is_flag := false; p_multiple := false;
     p_count := false; p_opts := opts; p_secondary_opts := [];
     p_help := None |}.

Definition plain_argument (name : string) : Param :=
  {| p_kind := KArgument; p_name := Some name; p_type := StringParamType;
     p_nargs := 1; p_required := true; p_default := VNone;
     p_hidden := false; p_is_flag := false; p_multiple := false;
     p_count := false; p_opts := []; p_secondary_opts := [];
     p_help := None |}.

Definition with_type (pt : ParamType) (p : Param) : Param :=
  {| p_kind := p_kind p; p_name := p_name p; p_type := pt;
     p_nargs := p_nargs p; p_required := p_required p;
     p_default := p_default p; p_hidden := p_hidden p;
     p_is_flag := p_is_flag p; p_multiple := p_multiple p;
     p_count := p_count p; p_opts := p_opts p;
     p_secondary_opts := p_secondary_opts p; p_help := p_help p |}.

Definition with_default (d : PyVal) (p : Param) : Param :=
  {| p_kind := p_kind p; p_name := p_name p; p_type := p_type p;
     p_nargs := p_nargs p; p_required := p_required p;
     p_default := d; p_hidden := p_hidden p;
     p_is_flag := p_is_flag p; p_multiple := p_multiple p;
     p_count := p_count p; p_opts := p_opts p;
     p_secondary_opts := p_secondary_opts p; p_help := p_help p |}.

(** What a command exposes as parameters, and what a descriptor emits. *)
Definition cmd_params (cmd : Cmd) : list Param :=
  match cmd_info cmd with
  | Some i => c_params i
  | None => []
  end.

Definition emitted_args (c : CommandDescriptor) : list ArgDescriptor :=
  default [] (cd_args c).

Definition reserved_name (name : string) : Prop :=
  name = "help" \/ name = "version" \/ name = "mtp_describe".

(** The guard of the default rule, as the specification words it with
    the empty tuple for the empty collection. *)
Definition default_worth_emitting (param : Param) : Prop :=
  p_default param <> VNone
  /\ p_default param <> VTuple []
  /\ p_default param <> VSentinel
  /\ ~ (is_Option param = true /\ p_is_flag param = true
        /\ p_default param = VBool false).

(** The invariant of [ArgDescriptor] as the data model words it. *)
Definition values_iff_enum (a : ArgDescriptor) : Prop :=
  ad_values a <> None <-> ad_type a = "enum".

(** The serialized form, entity by entity, as the JSON shape lists it:
    camelCase keys in declaration order, a field present only when its
    value is not [None]. *)
Definition field (k : string) (v : PyVal) : list (string * PyVal) :=
  if is_None v then [] else [(k, v)].

(** What the loop of [to_dict] stores for a field value: lists are
    converted element-wise, dataclass instances recursively, anything
    else is stored as it is. *)
Definition ser_value (v : PyVal) : PyVal :=
  match v with
  | VList items => VList (map to_dict items)
  | VData _ _ => to_dict v
  | _ => v
  end.

(** The loop over [fields(obj)], as a function of its own. *)
Fixpoint fields_loop (fs : list (string * PyVal))
    (result : list (string * PyVal)) : list (string * PyVal) :=
  match fs with
  | [] => result
  | (f_name, val) :: rest =>
    if is_None val then fields_loop rest result
    else fields_loop rest
           (dict_set (_snake_to_camel f_name) (ser_value val) result)
  end.

Definition entries (v : PyVal) : list (string * PyVal) :=
  match v with VDict d => d | _ => [] end.

Definition ser_example (e : Example_) : PyVal :=
  VDict (field "description" (VStr (ex_description e))
         ++ field "command" (VStr (ex_command e))
         ++ field "output" (of_opt_str (ex_output e))).

Definition ser_io (io : IODescriptor) : PyVal :=
  VDict (field "contentType" (of_opt_str (io_content_type io))
         ++ field "description" (of_opt_str (io_description io))
         ++ field "schema" (of_opt_dict (io_schema io))).

Definition ser_arg (a : ArgDescriptor) : PyVal :=
  VDict (field "name" (VStr (ad_name a))
         ++ field "type" (VStr (ad_type a))
         ++ field "description" (of_opt_str (ad_description a))
         ++ field "required"
              (match ad_required a with Some b => VBool b | None => VNone end)
         ++ field "default" (ser_value (ad_default a))
         ++ field "values"
              (match ad_values a with
               | Some vs => VList (map VStr vs)
               | None => VNone
               end)).

Definition ser_opt_io (o : option IODescriptor) : PyVal :=
  match o with Some io => ser_io io | None => VNone end.

Definition ser_command (c : CommandDescriptor) : PyVal :=
  VDict (field "name" (VStr (cd_name c))
         ++ field "description" (VStr (cd_description c))
         ++ field "args"
              (match cd_args c with
               | Some args => VList (map ser_arg args)
               | None => VNone
               end)
         ++ field "stdin" (ser_opt_io (cd_stdin c))
         ++ field "stdout" (ser_opt_io (cd_stdout c))
         ++ field "examples"
              (match cd_examples c with
               | Some es => VList (map ser_example es)
               | None => VNone
               end)).

Definition ser_schema (s : ToolSchema) : PyVal :=
  VDict (field "name" (VStr (ts_name s))
         ++ field "version" (VStr (ts_version s))
         ++ field "description" (VStr (ts_description s))
         ++ field "specVersion" (VStr (ts_spec_version s))
         ++ field "commands" (VList (map ser_command (ts_commands s)))
         ++ field "auth"
              (match ts_auth s with
               | Some a => to_dict (obj_of_auth a)
               | None => VNone
               end)).

(** No key of the mapping is bound to [None]. *)
Definition no_null_entry (v : PyVal) : Prop :=
  Forall (fun kv => snd kv <> VNone) (entries v).

(** The auth object before [extra] is looked at. *)
Definition auth_base (a : AuthConfig) : list (string * PyVal) :=
  field "type" (VStr (auth_type a))
  ++ field "description" (of_opt_str (auth_description a)).

(** Worked inputs of the serializer. *)
Definition auth_oauth2 : AuthConfig :=
  mkAuth "oauth2" None (Some [("authorizationUrl", VStr "https://x")]).

Definition auth_empty_extra : AuthConfig := mkAuth "oauth2" None (Some []).

Definition auth_extra_named_extra : AuthConfig :=
  mkAuth "oauth2" None (Some [("extra", VStr "x")]).

Definition schema_null_in_extra : ToolSchema :=
  mkSchema "tool" "1.0.0" "" MTP_SPEC_VERSION []
    (Some (mkAuth "api-key" None (Some [("envVar", VNone)]))).

(** An empty collection, in the words of the default rule. *)
Definition is_empty_collection (v : PyVal) : bool :=
  match v with
  | VTuple [] | VList [] | VDict [] => true
  | _ => false
  end.

(** Worked inputs of the argument builder: [--port] with a textual
    default, [--tag] given several times with [default=[]], the flag
    declared as ["+w/-w"], and a command that declares that flag before
    its positional argument. *)
Definition port_option : Param :=
  with_default (VStr "8080") (plain_option "port" ["--port"]).

Definition tag_option : Param :=
  {| p_kind := KOption; p_name := Some "tag"; p_type := StringParamType;
     p_nargs := 1; p_required := false; p_default := VList [];
     p_hidden := false; p_is_flag := false; p_multiple := true;
     p_count := false; p_opts := ["--tag"]; p_secondary_opts := [];
     p_help := None |}.

Definition plus_flag : Param :=
  {| p_kind := KOption; p_name := Some "w"; p_type := BoolParamType;
     p_nargs := 1; p_required := false; p_default := VBool false;
     p_hidden := false; p_is_flag := true; p_multiple := false;
     p_count := false; p_opts := ["+w"]; p_secondary_opts := ["-w"];
     p_help := None |}.

Definition cmd_plus_flag : Cmd :=
  Command (mkInfo (Some "tool") None false [plus_flag; plain_argument "input"]).

(** The visible children of a node, in the order the group lists them. *)
Definition visible_child (entry : string * option Cmd) : option (string * Cmd) :=
  match snd entry with
  | Some sub => if cmd_hidden sub then None else Some (fst entry, sub)
  | None => None
  end.

Definition visible_children (cmd : Cmd) : list (string * Cmd) :=
  match cmd with
  | Group _ subs => omap visible_child subs
  | _ => []
  end.

(** The reachable visible leaves of a tree, depth-first in the order
    the groups list their children, each with the path accumulated on the
    way down to it.  A node is a leaf when nothing visible lies below. *)
Fixpoint leaves (cmd : Cmd) (parent_path : option string)
    {struct cmd} : list (option string * Cmd) :=
  match cmd with
  | Group _ subs =>
    let below :=
      (fix go (entries : list (string * option Cmd))
          : list (option string * Cmd) :=
         match entries with
         | [] => []
         | (sn, Some sub) :: rest =>
           if cmd_hidden sub then go rest
           else leaves sub (Some (sub_path parent_path sn)) ++ go rest
         | (_, None) :: rest => go rest
         end) subs in
    match below with
    | [] => [(parent_path, cmd)]
    | _ => below
    end
  | _ => [(parent_path, cmd)]
  end.

(** A tree is well named when, at every group reached through visible
    children, the visible children have pairwise distinct names that are
    not empty and contain no space. *)
Fixpoint has_space (s : string) : bool :=
  match s with
  | EmptyString => false
  | String c r => Ascii.eqb c " "%char || has_space r
  end.

Definition name_ok (sn : string) : bool := str_truthy sn && negb (has_space sn).

Fixpoint well_named (cmd : Cmd) : bool :=
  match cmd with
  | Group _ subs =>
    let names := map fst (visible_children cmd) in
    bool_decide (NoDup names) && forallb name_ok names
    && (fix all (entries : list (string * option Cmd)) : bool :=
          match entries with
          | [] => true
          | (_, Some sub) :: rest =>
            (cmd_hidden sub || well_named sub) && all rest
          | (_, None) :: rest => all rest
          end) subs
  | _ => true
  end.

(** Worked trees: a single command; [tool > a > b > c] with one flag;
    a group with a visible and a hidden command; a group whose child is
    registered as ["a b"] next to a group [a] with a child [b]. *)
Definition leaf_cmd (name : string) (params : list Param) : Cmd :=
  Command (mkInfo (Some name) None false params).

Definition group_cmd (name : string) (subs : list (string * Cmd)) : Cmd :=
  Group (mkInfo (Some name) None false [])
        (map (fun e => (fst e, Some (snd e))) subs).

Definition tree_nested : Cmd :=
  group_cmd "tool"
    [("a", group_cmd "a"
             [("b", group_cmd "b"
                      [("c", leaf_cmd "c"
                               [with_type BoolParamType
                                  (plain_option "flag" ["--flag"])])])])].

Definition tree_hidden : Cmd :=
  group_cmd "tool"
    [("public", leaf_cmd "public" []);
     ("internal", Command (mkInfo (Some "internal") None true []))].

Definition tree_clash : Cmd :=
  group_cmd "tool"
    [("a", group_cmd "a" [("b", leaf_cmd "b" [])]);
     ("a b", leaf_cmd "a b" [])].

(** The descriptor the walker builds for a leaf reached with a path. *)
Definition build_leaf (py_int py_float : string -> option Z)
    (annotations : option (gmap string CommandAnnotation))
    (leaf : option string * Cmd) : CommandDescriptor :=
  _build_command py_int py_float (snd leaf) (leaf_name (fst leaf))
    (annotation_for annotations (leaf_name (fst leaf))).

(** A name extends a path when it is the path itself or the path
    followed by a space and more. *)
Definition extends (q n : string) : Prop :=
  exists t, n = q +:+ t /\ (t = "" \/ exists r, t = String " " r).

(** The names the walker gives to the leaves of a tree. *)
Definition path_names (cmd : Cmd) (parent_path : option string) : list string :=
  map (fun leaf => leaf_name (fst leaf)) (leaves cmd parent_path).

(** ** __init__.py: the public entry points *)

Definition describe (py_int py_float : string -> option Z)
    (cli : Cmd) (options : option DescribeOptions) : ToolSchema :=
  generate_schema py_int py_float cli options.

(** The option [with_describe] registers, [click.Option(["--mtp-describe"],
    is_flag=True, ...)], with the attributes click derives from that
    declaration: the name [mtp_describe], the boolean type and the
    default [False] of a flag. *)
Definition mtp_describe_option : Param :=
  {| p_kind := KOption; p_name := Some "mtp_describe";
     p_type := BoolParamType; p_nargs := 1; p_required := false;
     p_default := VBool false; p_hidden := false; p_is_flag := true;
     p_multiple := false; p_count := false;
     p_opts := ["--mtp-describe"]; p_secondary_opts := [];
     p_help := Some "Output machine-readable MTP JSON schema" |}.

(** [cli.params.insert(0, option)] *)
Definition insert_param (o : Param) (info : CmdInfo) : CmdInfo :=
  {| c_name := c_name info; c_help := c_help info;
     c_hidden := c_hidden info; c_params := o :: c_params info |}.

Definition with_describe (cli : Cmd) (options : option DescribeOptions) : Cmd :=
  match cli with
  | BaseCommand _ _ => cli
  | Command info => Command (insert_param mtp_describe_option info)
  | Group info subs => Group (insert_param mtp_describe_option info) subs
  end.

(** ** More reference readings *)

Fixpoint has_underscore (s : string) : bool :=
  match s with
  | EmptyString => false
  | String c r => Ascii.eqb c "_"%char || has_underscore r
  end.

Fixpoint has_newline (s : string) : bool :=
  match s with
  | EmptyString => false
  | String c r => Ascii.eqb c "010"%char || has_newline r
  end.

Definition first_is_space (s : string) : bool :=
  match s with
  | String c _ => is_space c
  | EmptyString => false
  end.

Fixpoint last_is_space (s : string) : bool :=
  match s with
  | EmptyString => false
  | String c EmptyString => is_space c
  | String _ r => last_is_space r
  end.

(** The seven type tags of the schema. *)
Definition mtp_types : list string :=
  ["boolean"; "enum"; "array"; "integer"; "number"; "path"; "string"].

(** The display name of a parameter, whatever the annotations say. *)
Definition display_name (param : Param) : string :=
  if is_Option param then _option_display_name param
  else or_empty (p_name param).

(** The chains of child names that lead from a node to its reachable
    visible leaves, depth-first, and the name such a chain spells. *)
Fixpoint leaf_segments (cmd : Cmd) : list (list string) :=
  match cmd with
  | Group _ subs =>
    let below :=
      (fix go (entries : list (string * option Cmd)) : list (list string) :=
         match entries with
         | [] => []
         | (sn, Some sub) :: rest =>
           if cmd_hidden sub then go rest
           else map (cons sn) (leaf_segments sub) ++ go rest
         | (_, None) :: rest => go rest
         end) subs in
    match below with
    | [] => [[]]
    | _ => below
    end
  | _ => [[]]
  end.

Definition segments_name (segments : list string) : string :=
  match segments with
  | [] => "_root"
  | _ => String.concat " " segments
  end.

Definition path_of_segments (segments : list string) : option string :=
  match segments with
  | [] => None
  | _ => Some (String.concat " " segments)
  end.

(** A group with the entries that are not visible left out. *)
Definition drop_invisible (cmd : Cmd) : Cmd :=
  match cmd with
  | Group info subs => Group info (filter (fun e => is_visible e = true) subs)
  | _ => cmd
  end.

(** Worked inputs: a command with two options and two positional
    arguments declared in alternation, and a tool with two commands. *)
Definition cmd_mixed : Cmd :=
  leaf_cmd "copy"
    [plain_option "force" ["-f"; "--force"]; plain_argument "src";
     plain_option "mode" ["--mode"]; plain_argument "dst"].


(** A stock [click.Group], as the click library (outside this
    repository) defines it: [commands] is the dict of registered
    commands, one entry per name in the order of declaration;
    [list_commands] returns [sorted(self.commands)] and [get_command]
    looks the name up. *)
Fixpoint insert_sorted (sn : string) (names : list string) : list string :=
  match names with
  | [] => [sn]
  | x :: rest =>
    if String.leb sn x then sn :: names else x :: insert_sorted sn rest
  end.

Definition sorted (names : list string) : list string :=
  fold_right insert_sorted [] names.

Fixpoint get_registered (sn : string) (commands : list (string * Cmd))
    : option Cmd :=
  match commands with
  | [] => None
  | (k, c) :: rest => if String.eqb sn k then Some c else get_registered sn rest
  end.

Definition click_group (info : CmdInfo) (commands : list (string * Cmd)) : Cmd :=
  Group info
    (map (fun sn => (sn, get_registered sn commands))
         (sorted (map fst commands))).

(** Worked trees: a command [x] in a group registered under the empty
    name; a command registered under the empty name; a stock group that
    declares [zeta] before [alpha]; and [tool > auth > login, logout]
    next to [tool > run]. *)
Definition tree_empty_name : Cmd :=
  group_cmd "tool" [("", group_cmd "" [("x", leaf_cmd "x" [])])].

Definition tree_empty_leaf : Cmd :=
  group_cmd "tool" [("", leaf_cmd "" [])].

Definition declared_zeta_alpha : list (string * Cmd) :=
  [("zeta", leaf_cmd "zeta" []); ("alpha", leaf_cmd "alpha" [])].

Definition tree_zeta_alpha : Cmd :=
  click_group (mkInfo (Some "tool") None false []) declared_zeta_alpha.

Definition tree_auth : Cmd :=
  group_cmd "tool"
    [("auth", group_cmd "auth"
                [("login", leaf_cmd "login" []);
                 ("logout", leaf_cmd "logout" [])]);
     ("run", leaf_cmd "run" [])].

(** * Properties *)

(** ** The type inferencer *)



Lemma extract_arg_type py_int py_float param ov ad :
  ad_type (_extract_arg py_int py_float param ov ad) = fst (_infer_type param ov).
Proof. unfold _extract_arg. destruct (_infer_type param ov); reflexivity. Qed.

Lemma extract_arg_values py_int py_float param ov ad :
  ad_values (_extract_arg py_int py_float param ov ad) =
    match snd (_infer_type param ov) with
    | Some (v :: vs) => Some (v :: vs)
    | _ => None
    end.
Proof. unfold _extract_arg. destruct (_infer_type param ov); reflexivity. Qed.

Lemma extract_arg_default py_int py_float param ov ad :
  ad_default (_extract_arg py_int py_float param ov ad) =
    if keeps_default param
    then coerce_default py_int py_float (fst (_infer_type param ov))
           (p_default param)
    else VNone.
Proof. unfold _extract_arg. destruct (_infer_type param ov); reflexivity. Qed.

Lemma infer_type_values param ov vs :
  snd (_infer_type param ov) = Some vs <->
  override_of ov (or_empty (p_name param)) = None
  /\ is_Option param && p_is_flag param = false
  /\ p_type param = Choice vs.
Proof.
  unfold _infer_type.
  destruct (override_of ov (or_empty (p_name param))); simpl.
  { split; [ discriminate | intros (? & _); discriminate ]. }
  destruct (is_Option param && p_is_flag param); simpl.
  { split; [ discriminate | intros (_ & ? & _); discriminate ]. }
  destruct (p_type param); simpl;
    repeat match goal with
           | |- context [ if ?b then _ else _ ] => destruct b; simpl
           end;
    split; try discriminate; try (intros (_ & _ & ?); discriminate);
    try (intros [= ->]; auto); intros (_ & _ & [= ->]); reflexivity.
Qed.

(** ** The argument builder *)

(** C1 (amended): for a parameter whose choice set, if it has one, is not
    empty, [values] is present exactly when rule 3 decided the type, that
    is, no explicit override applies, the parameter is not a boolean flag
    and it declares a choice set; whenever [values] is present the type is
    ["enum"] and [values] is the declared choice set in its declared
    order; a type that comes from an explicit override carries no
    [values], whatever that type is. *)
Theorem extract_arg_values_enum py_int py_float (param : Param)
    (type_overrides arg_descriptions : option (gmap string string)) :
  p_type param <> Choice [] ->
  let a := _extract_arg py_int py_float param type_overrides arg_descriptions in
  (ad_values a <> None <->
     override_of type_overrides (or_empty (p_name param)) = None
     /\ is_Option param && p_is_flag param = false
     /\ is_choice (p_type param) = true)
  /\ (forall vs, ad_values a = Some vs ->
        ad_type a = "enum" /\ p_type param = Choice vs)
  /\ (override_of type_overrides (or_empty (p_name param)) <> None ->
      ad_values a = None).
Proof.
  intros Hne a. subst a.
  rewrite extract_arg_values, extract_arg_type.
  split; [ | split ].
  - split.
    + destruct (snd (_infer_type param type_overrides)) as [[|v vs]|] eqn:E;
        try congruence.
      intros _. apply infer_type_values in E as (? & ? & ->). auto.
    + intros (Hov & Hflag & Hch).
      destruct (p_type param) as [| | | | | |cs| |] eqn:Ept; try discriminate.
      assert (E : snd (_infer_type param type_overrides) = Some cs)
        by (apply infer_type_values; rewrite Ept; auto).
      rewrite E. destruct cs; congruence.
  - intros vs Hvs.
    destruct (snd (_infer_type param type_overrides)) as [[|v vs']|] eqn:E;
      try discriminate.
    injection Hvs as <-.
    apply infer_type_values in E as (Hov & Hflag & Ept).
    split; [ | exact Ept ].
    unfold _infer_type. rewrite Hov, Hflag, Ept. reflexivity.
  - intros Hov.
    destruct (snd (_infer_type param type_overrides)) as [[|v vs']|] eqn:E;
      try reflexivity.
    apply infer_type_values in E as (? & _). contradiction.
Qed.

Lemma extract_arg_values_enum_witness :
  let a := _extract_arg decimal_int no_float
             (with_type (Choice ["red"; "green"; "blue"])
                (plain_option "color" ["--color"])) None None in
  ad_values a = Some ["red"; "green"; "blue"] /\ ad_type a = "enum".
Proof.
  pose proof (extract_arg_values_enum decimal_int no_float
                (with_type (Choice ["red"; "green"; "blue"])
                   (plain_option "color" ["--color"])) None None) as H.
  simpl in H.
  destruct H as (_ & H & _); [ discriminate | ].
  split; [ reflexivity | ].
  apply (H ["red"; "green"; "blue"]). reflexivity.
Defined.

(** C1, as stated, fails: an explicit override to ["enum"] gives the type
    ["enum"] without [values], and so does an empty choice set. *)
Lemma values_iff_enum_counterexample :
  ~ values_iff_enum
      (_extract_arg decimal_int no_float
         (plain_option "level" ["--level"])
         (Some {[ "level" := "enum" ]}) None)
  /\ ~ values_iff_enum
        (_extract_arg decimal_int no_float
           (with_type (Choice []) (plain_option "color" ["--color"]))
           None None).
Proof.
  split; intros [_ H].
  - assert (E : ad_type
                  (_extract_arg decimal_int no_float
                     (plain_option "level" ["--level"])
                     (Some {[ "level" := "enum" ]}) None) = "enum").
    { rewrite extract_arg_type. unfold _infer_type. simpl.
      rewrite lookup_singleton_eq. reflexivity. }
    apply H in E. apply E.
    rewrite extract_arg_values. unfold _infer_type. simpl.
    rewrite lookup_singleton_eq. reflexivity.
  - apply H; reflexivity.
Qed.

(** ** The canonical serializer *)

Lemma fields_loop_cons f v rest result :
  fields_loop ((f, v) :: rest) result =
    fields_loop rest
      (if is_None v then result
       else dict_set (_snake_to_camel f) (ser_value v) result).
Proof. simpl. destruct (is_None v); reflexivity. Qed.

Lemma to_dict_VData cls fs :
  to_dict (VData cls fs) =
    if String.eqb cls "AuthConfig" then
      match dict_get "extra" fs with
      | Some (VDict (kv :: kvs)) =>
        VDict (dict_update (dict_del "extra" (fields_loop fs [])) (kv :: kvs))
      | _ => VDict (fields_loop fs [])
      end
    else VDict (fields_loop fs []).
Proof.
  cbn [to_dict].
  match goal with
  | |- context [ VDict (?loop fs []) ] =>
    assert (E : forall l r, loop l r = fields_loop l r)
  end.
  { induction l as [|[f v] l IH]; intros r; [ reflexivity | ].
    cbn [fields_loop].
    destruct v; cbn [is_None ser_value to_dict]; apply IH. }
  rewrite E. reflexivity.
Qed.

Lemma is_None_ser_value v : is_None (ser_value v) = is_None v.
Proof.
  destruct v; try reflexivity.
  cbn [ser_value]. rewrite to_dict_VData.
  repeat match goal with
         | |- context [ if ?b then _ else _ ] => destruct b
         | |- context [ match ?x with _ => _ end ] => destruct x
         end; reflexivity.
Qed.

Lemma field_ser_value k v :
  (if is_None v then [] else [(k, ser_value v)]) = field k (ser_value v).
Proof. unfold field. rewrite is_None_ser_value. reflexivity. Qed.

(** *** Insertion-ordered dicts *)

Lemma dict_set_fresh k v d :
  k ∉ map fst d -> dict_set k v d = d ++ [(k, v)].
Proof.
  induction d as [|[k' v'] d IH]; intros Hk; [ reflexivity | ].
  cbn [dict_set]. destruct (String.eqb_spec k k') as [->|Hne].
  - exfalso. apply Hk. cbn. left.
  - cbn [app]. f_equal. apply IH. intros Hin. apply Hk. cbn. right. exact Hin.
Qed.

Lemma dict_update_fresh r l :
  NoDup (map fst (r ++ l)) -> dict_update r l = r ++ l.
Proof.
  unfold dict_update. revert r.
  induction l as [|[k v] l IH]; intros r Hnd; cbn [fold_left fst snd].
  - symmetry. apply app_nil_r.
  - assert (Hk : k ∉ map fst r).
    { rewrite map_app in Hnd. apply NoDup_app in Hnd as (_ & Hdis & _).
      intros Hin. apply (Hdis k Hin). cbn. left. }
    rewrite (dict_set_fresh _ _ _ Hk), IH.
    + rewrite <- app_assoc. reflexivity.
    + rewrite <- app_assoc. exact Hnd.
Qed.

Lemma dict_get_set k k' v d :
  dict_get k (dict_set k' v d) =
    if String.eqb k k' then Some v else dict_get k d.
Proof.
  induction d as [|[k0 v0] d IH]; cbn [dict_set dict_get].
  - reflexivity.
  - destruct (String.eqb_spec k' k0) as [->|Hne]; cbn [dict_get].
    + destruct (String.eqb k k0); reflexivity.
    + destruct (String.eqb_spec k k0) as [->|Hne'].
      * destruct (String.eqb_spec k0 k'); [ congruence | reflexivity ].
      * exact IH.
Qed.

Lemma dict_get_update_other k r l :
  k ∉ map fst l -> dict_get k (dict_update r l) = dict_get k r.
Proof.
  unfold dict_update. revert r.
  induction l as [|[k' v'] l IH]; intros r Hk; [ reflexivity | ].
  cbn [fold_left fst snd]. rewrite IH.
  - rewrite dict_get_set.
    destruct (String.eqb_spec k k') as [->|]; [ | reflexivity ].
    exfalso. apply Hk. cbn. left.
  - intros Hin. apply Hk. cbn. right. exact Hin.
Qed.

Lemma dict_get_update_in k v r l :
  NoDup (map fst l) -> (k, v) ∈ l -> dict_get k (dict_update r l) = Some v.
Proof.
  unfold dict_update. revert r.
  induction l as [|[k' v'] l IH]; intros r Hnd Hin.
  - inversion Hin.
  - cbn [map fst] in Hnd. apply NoDup_cons in Hnd as [Hk' Hnd].
    cbn [fold_left fst snd].
    apply elem_of_cons in Hin as [[= -> ->]|Hin].
    + fold (dict_update (dict_set k' v' r) l).
      rewrite (dict_get_update_other _ _ _ Hk'), dict_get_set.
      rewrite String.eqb_refl. reflexivity.
    + apply IH; assumption.
Qed.

Lemma dict_get_in_keys k d : is_Some (dict_get k d) <-> k ∈ map fst d.
Proof.
  induction d as [|[k' v'] d IH]; cbn [dict_get map fst].
  - split; [ intros [? [=]] | intros H; inversion H ].
  - destruct (String.eqb_spec k k') as [->|Hne].
    + split; [ intros _; left | intros _; eauto ].
    + rewrite IH. rewrite elem_of_cons. tauto.
Qed.

(** *** Dataclass instances *)

Lemma fields_loop_update fs result :
  fields_loop fs result =
    dict_update result
      (flat_map (fun fv => field (_snake_to_camel (fst fv)) (ser_value (snd fv)))
         fs).
Proof.
  revert result. induction fs as [|[f v] fs IH]; intros result.
  - reflexivity.
  - rewrite fields_loop_cons, IH. cbn [flat_map fst snd].
    unfold dict_update at 2. rewrite fold_left_app.
    rewrite <- field_ser_value.
    destruct (is_None v); reflexivity.
Qed.

Lemma field_keys k v : map fst (field k v) = if is_None v then [] else [k].
Proof. unfold field. destruct (is_None v); reflexivity. Qed.

Lemma fields_keys_NoDup (fs : list (string * PyVal)) :
  NoDup (map (fun fv => _snake_to_camel (fst fv)) fs) ->
  NoDup (map fst
           (flat_map
              (fun fv => field (_snake_to_camel (fst fv)) (ser_value (snd fv)))
              fs)).
Proof.
  induction fs as [|[f v] fs IH]; cbn [map flat_map fst snd]; intros Hnd.
  - constructor.
  - apply NoDup_cons in Hnd as [Hf Hnd].
    rewrite map_app, field_keys.
    destruct (is_None (ser_value v)); cbn [app]; [ auto | ].
    apply NoDup_cons. split; [ | auto ].
    intros Hin. apply Hf.
    apply list_elem_of_fmap in Hin as ([k w] & -> & Hin).
    apply list_elem_of_In, in_flat_map in Hin as ([f' v'] & Hin' & Hfield).
    unfold field in Hfield. cbn [fst snd] in *.
    destruct (is_None (ser_value v')); [ destruct Hfield | ].
    destruct Hfield as [[= <- _]|[]].
    apply list_elem_of_fmap. exists (f', v'). split; [ reflexivity | ].
    apply list_elem_of_In. exact Hin'.
Qed.

(** Every dataclass instance other than an [AuthConfig], with field
    names that stay distinct in camelCase, serializes to its fields in
    declaration order: camelCase key, converted value, [None] omitted. *)
Lemma to_dict_dataclass cls (fs : list (string * PyVal)) :
  String.eqb cls "AuthConfig" = false ->
  NoDup (map (fun fv => _snake_to_camel (fst fv)) fs) ->
  to_dict (VData cls fs) =
    VDict (flat_map
             (fun fv => field (_snake_to_camel (fst fv)) (ser_value (snd fv)))
             fs).
Proof.
  intros Hcls Hnd. rewrite to_dict_VData, Hcls, fields_loop_update.
  rewrite dict_update_fresh; [ reflexivity | ].
  cbn [app]. apply fields_keys_NoDup, Hnd.
Qed.

Ltac camel_keys :=
  repeat match goal with
         | |- context [ _snake_to_camel ?k ] =>
           let k' := eval vm_compute in (_snake_to_camel k) in
           change (_snake_to_camel k) with k'
         end.

Ltac distinct_keys := cbn [map fst]; camel_keys; compute_done.

Ltac dataclass_shape :=
  rewrite to_dict_dataclass by (first [ reflexivity | distinct_keys ]);
  cbn [flat_map fst snd]; camel_keys; rewrite ?app_nil_r.

Lemma ser_value_opt_str o : ser_value (of_opt_str o) = of_opt_str o.
Proof. destruct o; reflexivity. Qed.

Lemma ser_value_opt_dict o : ser_value (of_opt_dict o) = of_opt_dict o.
Proof. destruct o; reflexivity. Qed.

Lemma to_dict_example e : to_dict (obj_of_example e) = ser_example e.
Proof.
  unfold obj_of_example, ser_example. dataclass_shape.
  rewrite ser_value_opt_str. reflexivity.
Qed.

Lemma to_dict_io io : to_dict (obj_of_io io) = ser_io io.
Proof.
  unfold obj_of_io, ser_io. dataclass_shape.
  rewrite !ser_value_opt_str, ser_value_opt_dict. reflexivity.
Qed.

Lemma to_dict_arg a : to_dict (obj_of_arg a) = ser_arg a.
Proof.
  unfold obj_of_arg, ser_arg. dataclass_shape.
  rewrite ser_value_opt_str. cbn [ser_value].
  repeat f_equal.
  - destruct (ad_required a); reflexivity.
  - destruct (ad_values a) as [vs|]; [ | reflexivity ].
    cbn [ser_value]. rewrite map_map. reflexivity.
Qed.

Lemma ser_value_opt_io o :
  ser_value (match o with Some io => obj_of_io io | None => VNone end)
  = ser_opt_io o.
Proof. destruct o as [io|]; [ | reflexivity ]. apply to_dict_io. Qed.

Lemma to_dict_command c : to_dict (obj_of_command c) = ser_command c.
Proof.
  unfold obj_of_command, ser_command. dataclass_shape.
  rewrite !ser_value_opt_io. cbn [ser_value].
  repeat f_equal.
  - destruct (cd_args c) as [args|]; [ | reflexivity ].
    cbn [ser_value]. rewrite map_map. f_equal.
    apply map_ext. intros a. apply to_dict_arg.
  - destruct (cd_examples c) as [es|]; [ | reflexivity ].
    cbn [ser_value]. rewrite map_map. f_equal.
    apply map_ext. intros e. apply to_dict_example.
Qed.

Lemma to_dict_schema s : to_dict (obj_of_schema s) = ser_schema s.
Proof.
  unfold obj_of_schema, ser_schema. dataclass_shape.
  cbn [ser_value]. repeat f_equal.
  - rewrite map_map. apply map_ext. intros c. apply to_dict_command.
  - destruct (ts_auth s) as [a|]; reflexivity.
Qed.

Lemma field_no_null k v : Forall (fun kv => snd kv <> VNone) (field k v).
Proof.
  unfold field. destruct v; cbn [is_None]; repeat constructor; discriminate.
Qed.

Lemma no_null_app (d1 d2 : list (string * PyVal)) :
  Forall (fun kv => snd kv <> VNone) d1 ->
  Forall (fun kv => snd kv <> VNone) d2 ->
  Forall (fun kv => snd kv <> VNone) (d1 ++ d2).
Proof. intros H1 H2. apply Forall_app. split; assumption. Qed.

Ltac no_null :=
  unfold no_null_entry; cbn [entries];
  repeat (apply no_null_app; [ apply field_no_null | ]);
  apply field_no_null.

(** C9 (amended): the serialized schema is the mapping of its fields
    under their lowerCamelCase names ([content_type] becomes
    [contentType], [spec_version] becomes [specVersion]), nested entities
    and sequences converted element-wise, and no field of any entity
    (schema, command, argument, I/O descriptor, example) whose value is
    [None] is emitted: none of their own keys is bound to [None].
    Values that pass through unchanged (the entries merged from
    [AuthConfig.extra], free-form maps, defaults) are not inspected. *)
Theorem to_dict_schema_shape (s : ToolSchema) :
  _snake_to_camel "content_type" = "contentType"
  /\ _snake_to_camel "spec_version" = "specVersion"
  /\ to_dict (obj_of_schema s) = ser_schema s
  /\ no_null_entry (ser_schema s)
  /\ (forall c, to_dict (obj_of_command c) = ser_command c
               /\ no_null_entry (ser_command c))
  /\ (forall a, to_dict (obj_of_arg a) = ser_arg a
               /\ no_null_entry (ser_arg a))
  /\ (forall io, to_dict (obj_of_io io) = ser_io io
                /\ no_null_entry (ser_io io))
  /\ (forall e, to_dict (obj_of_example e) = ser_example e
               /\ no_null_entry (ser_example e)).
Proof.
  split; [ reflexivity | ].
  split; [ reflexivity | ].
  split; [ apply to_dict_schema | ].
  split; [ no_null | ].
  split; [ intros c; split; [ apply to_dict_command | no_null ] | ].
  split; [ intros a; split; [ apply to_dict_arg | no_null ] | ].
  split; [ intros io; split; [ apply to_dict_io | no_null ] | ].
  intros e; split; [ apply to_dict_example | no_null ].
Qed.

(** C9, as stated, fails: an entry of [AuthConfig.extra] bound to [None]
    is merged into the auth object as it is. *)
Lemma to_dict_null_key_counterexample :
  dict_get "auth" (entries (to_dict (obj_of_schema schema_null_in_extra)))
  = Some (VDict [("type", VStr "api-key"); ("envVar", VNone)]).
Proof. reflexivity. Qed.

Lemma to_dict_auth a :
  to_dict (obj_of_auth a) =
    VDict (match auth_extra a with
           | Some (kv :: kvs) => dict_update (auth_base a) (kv :: kvs)
           | Some [] => auth_base a ++ [("extra", VDict [])]
           | None => auth_base a
           end).
Proof.
  unfold obj_of_auth. rewrite to_dict_VData.
  destruct a as [t [d|] [[|kv kvs]|]]; reflexivity.
Qed.

Lemma auth_base_no_extra a : dict_get "extra" (auth_base a) = None.
Proof. destruct a as [t [d|] e]; reflexivity. Qed.

(** C2 (amended): for every non-empty [extra] map, serialization merges
    each of its key/value pairs into the auth object, at the level of
    [type] and [description] and over them when the keys collide; every
    other key keeps what [type] and [description] gave it; and the auth
    object has a key ["extra"] exactly when the map itself has an entry
    under that key. *)
Theorem auth_extra_merged (a : AuthConfig) (extra : list (string * PyVal)) :
  auth_extra a = Some extra ->
  extra <> [] ->
  NoDup (map fst extra) ->
  let d := entries (to_dict (obj_of_auth a)) in
  to_dict (obj_of_auth a) = VDict d
  /\ (forall k v, (k, v) ∈ extra -> dict_get k d = Some v)
  /\ (forall k, k ∉ map fst extra -> dict_get k d = dict_get k (auth_base a))
  /\ (is_Some (dict_get "extra" d) <-> "extra" ∈ map fst extra).
Proof.
  intros Hextra Hne Hnd d. subst d.
  rewrite to_dict_auth, Hextra.
  destruct extra as [|kv kvs]; [ congruence | ]. cbn [entries].
  split; [ reflexivity | ].
  split; [ | split ].
  - intros k v Hin. apply dict_get_update_in; assumption.
  - intros k Hk. apply dict_get_update_other. exact Hk.
  - split.
    + intros Hsome.
      destruct (decide ("extra" ∈ map fst (kv :: kvs))) as [|Hnot]; [ assumption | ].
      rewrite (dict_get_update_other _ _ _ Hnot), auth_base_no_extra in Hsome.
      destruct Hsome as [? [=]].
    + intros Hin. apply list_elem_of_fmap in Hin as ([k v] & Hk & Hin).
      cbn [fst] in Hk. subst k.
      rewrite (dict_get_update_in _ v _ _ Hnd Hin). eauto.
Qed.

Lemma auth_extra_merged_witness :
  to_dict (obj_of_auth auth_oauth2)
  = VDict [("type", VStr "oauth2"); ("authorizationUrl", VStr "https://x")]
  /\ dict_get "authorizationUrl" (entries (to_dict (obj_of_auth auth_oauth2)))
     = Some (VStr "https://x").
Proof.
  destruct (auth_extra_merged auth_oauth2
              [("authorizationUrl", VStr "https://x")])
    as (Hd & Hin & _); [ reflexivity | discriminate | compute_done | ].
  split; [ exact Hd | ].
  apply Hin. left.
Defined.

(** C2, as stated, fails: an empty [extra] map stays in the auth object
    under the key ["extra"], and a map with an entry named ["extra"]
    puts that key back. *)
Lemma auth_extra_key_counterexample :
  dict_get "extra" (entries (to_dict (obj_of_auth auth_empty_extra)))
  = Some (VDict [])
  /\ dict_get "extra" (entries (to_dict (obj_of_auth auth_extra_named_extra)))
     = Some (VStr "x").
Proof. split; reflexivity. Qed.

(** ** The default rule *)

Lemma keeps_default_spec param :
  keeps_default param = true <-> default_worth_emitting param.
Proof.
  unfold keeps_default, default_worth_emitting.
  destruct (p_default param) as [| |[|]| | | |[|x xs]|xs|kvs|cls fs];
    destruct (is_Option param), (p_is_flag param); cbn;
    intuition (try congruence).
Qed.

Lemma coerce_default_not_None py_int py_float t d :
  d <> VNone -> coerce_default py_int py_float t d <> VNone.
Proof.
  intros Hd. unfold coerce_default.
  destruct d; try assumption.
  destruct (String.eqb t "integer"); [ destruct (py_int s); discriminate | ].
  destruct (String.eqb t "number"); [ destruct (py_float s); discriminate | ].
  discriminate.
Qed.

(** C7 (amended): the descriptor carries a default exactly when the
    underlying default is not [None], not the empty tuple, not the
    no-value sentinel and not [False] on a boolean flag; a textual default
    of an ["integer"] or ["number"] argument is replaced by what [int] or
    [float] parses from it and kept as it is when parsing fails; every
    other default is emitted unchanged. *)
Theorem extract_arg_default_rule py_int py_float (param : Param)
    (type_overrides arg_descriptions : option (gmap string string)) :
  let a := _extract_arg py_int py_float param type_overrides arg_descriptions in
  (ad_default a <> VNone <-> default_worth_emitting param)
  /\ (default_worth_emitting param ->
      forall s, p_default param = VStr s ->
        (ad_type a = "integer" ->
           ad_default a =
             match py_int s with Some z => VInt z | None => VStr s end)
        /\ (ad_type a = "number" ->
             ad_default a =
               match py_float s with Some f => VFloat f | None => VStr s end)
        /\ (ad_type a <> "integer" -> ad_type a <> "number" ->
             ad_default a = VStr s))
  /\ (default_worth_emitting param ->
      (forall s, p_default param <> VStr s) ->
      ad_default a = p_default param).
Proof.
  intros a. subst a. rewrite extract_arg_default, extract_arg_type.
  split; [ | split ].
  - rewrite <- keeps_default_spec.
    destruct (keeps_default param) eqn:Hk.
    + split; [ reflexivity | intros _ ].
      apply coerce_default_not_None.
      apply keeps_default_spec in Hk. apply Hk.
    + split; [ congruence | discriminate ].
  - intros Hw s Hs. apply keeps_default_spec in Hw. rewrite Hw, Hs.
    cbn [coerce_default].
    split; [ | split ].
    + intros ->. reflexivity.
    + intros ->. reflexivity.
    + intros Hi Hn.
      destruct (String.eqb_spec (fst (_infer_type param type_overrides))
                  "integer"); [ contradiction | ].
      destruct (String.eqb_spec (fst (_infer_type param type_overrides))
                  "number"); [ contradiction | reflexivity ].
  - intros Hw Hs. apply keeps_default_spec in Hw. rewrite Hw.
    unfold coerce_default.
    destruct (p_default param); try reflexivity.
    exfalso. apply (Hs s). reflexivity.
Qed.

Lemma extract_arg_default_rule_witness :
  ad_default (_extract_arg decimal_int no_float port_option
                (Some {[ "port" := "integer" ]}) None) = VInt 8080.
Proof.
  destruct (extract_arg_default_rule decimal_int no_float port_option
              (Some {[ "port" := "integer" ]}) None) as (_ & H & _).
  assert (Hw : default_worth_emitting port_option).
  { repeat split; try discriminate. intros (_ & ? & _). discriminate. }
  destruct (H Hw "8080" eq_refl) as (Hint & _).
  apply Hint.
  rewrite extract_arg_type. unfold _infer_type. cbn.
  rewrite lookup_singleton_eq. reflexivity.
Defined.

(** C7, as stated, fails: an empty list is an empty collection, and the
    descriptor of an option declared with [default=[]] carries it. *)
Lemma default_empty_list_counterexample :
  is_empty_collection (p_default tag_option) = true
  /\ ad_default (_extract_arg decimal_int no_float tag_option None None)
     = VList [].
Proof. split; reflexivity. Qed.

(** ** Filtering and ordering of the arguments of a command *)

Lemma is_filtered_param_spec param :
  _is_filtered_param param = true <->
  p_hidden param = true \/ reserved_name (or_empty (p_name param)).
Proof.
  unfold _is_filtered_param, reserved_name, _FILTERED_NAMES.
  destruct (p_hidden param); [ split; auto | ].
  case_bool_decide as Hin; rewrite !elem_of_cons, elem_of_nil in Hin.
  - split; [ intros _; right; tauto | reflexivity ].
  - split; [ discriminate | intros [?|Hr]; [ discriminate | tauto ] ].
Qed.

Lemma partition_by_dash_perm (args : list ArgDescriptor) :
  positional_of args ++ options_of args ≡ₚ args.
Proof.
  unfold positional_of, options_of.
  induction args as [|a args IH]; [ reflexivity | ].
  rewrite !filter_cons.
  destruct (starts_with_dash (ad_name a)) eqn:E.
  - destruct (decide (true = false)) as [?|_]; [ discriminate | ].
    destruct (decide (true = true)) as [_|?]; [ | congruence ].
    rewrite <- Permutation_middle. constructor. exact IH.
  - destruct (decide (false = false)) as [_|?]; [ | congruence ].
    destruct (decide (false = true)) as [?|_]; [ discriminate | ].
    cbn. constructor. exact IH.
Qed.

Lemma build_command_args py_int py_float cmd name annotation :
  cd_args (_build_command py_int py_float cmd name annotation) =
    match collect_args py_int py_float (cmd_params cmd)
            (annotation ≫= ann_arg_types)
            (annotation ≫= ann_arg_descriptions) with
    | [] => None
    | args => Some (positional_of args ++ options_of args)
    end.
Proof.
  unfold _build_command, cmd_params. cbn [cd_args].
  destruct (cmd_info cmd) as [i|]; [ | reflexivity ].
  destruct (collect_args _ _ _ _ _); reflexivity.
Qed.

(** C8: a parameter is filtered exactly when it is hidden or its name is
    one of [help], [version], [mtp_describe]; and the emitted arguments
    of a command are, up to their order, the descriptors of its
    parameters that are not filtered, one for one. *)
Theorem build_command_filtering py_int py_float (cmd : Cmd) (name : string)
    (annotation : option CommandAnnotation) :
  (forall param,
     _is_filtered_param param = true <->
     p_hidden param = true \/ reserved_name (or_empty (p_name param)))
  /\ emitted_args (_build_command py_int py_float cmd name annotation) ≡ₚ
       map (fun param =>
              _extract_arg py_int py_float param
                (annotation ≫= ann_arg_types)
                (annotation ≫= ann_arg_descriptions))
           (filter (fun param => _is_filtered_param param = false)
                   (cmd_params cmd)).
Proof.
  split; [ apply is_filtered_param_spec | ].
  unfold emitted_args. rewrite build_command_args.
  fold (collect_args py_int py_float (cmd_params cmd)
          (annotation ≫= ann_arg_types) (annotation ≫= ann_arg_descriptions)).
  destruct (collect_args py_int py_float (cmd_params cmd)
              (annotation ≫= ann_arg_types)
              (annotation ≫= ann_arg_descriptions)) as [|a args] eqn:E.
  - reflexivity.
  - cbn [default]. apply partition_by_dash_perm.
Qed.

(** X16: when the display name of every emitted parameter starts with a
    dash exactly for the options, the emitted sequence is the positional
    arguments followed by the options, each group in declaration order. *)
Lemma emitted_args_by_kind py_int py_float (cmd : Cmd) (name : string)
    (annotation : option CommandAnnotation) :
  let extract := fun param =>
    _extract_arg py_int py_float param
      (annotation ≫= ann_arg_types) (annotation ≫= ann_arg_descriptions) in
  let kept :=
    filter (fun param => _is_filtered_param param = false) (cmd_params cmd) in
  Forall (fun param =>
            starts_with_dash (ad_name (extract param)) = is_Option param) kept ->
  emitted_args (_build_command py_int py_float cmd name annotation)
  = map extract (filter (fun param => is_Option param = false) kept)
    ++ map extract (filter (fun param => is_Option param = true) kept).
Proof.
  intros extract kept Hagree.
  assert (Hsplit :
            positional_of (map extract kept)
            = map extract (filter (fun param => is_Option param = false) kept)
            /\ options_of (map extract kept)
               = map extract (filter (fun param => is_Option param = true) kept)).
  { unfold positional_of, options_of.
    induction Hagree as [|param l Hp _ [IH1 IH2]]; [ split; reflexivity | ].
    cbn [map]. rewrite !filter_cons, Hp, IH1, IH2.
    destruct (is_Option param); split; reflexivity. }
  destruct Hsplit as [Hpos Hopt].
  unfold emitted_args. rewrite build_command_args.
  fold (collect_args py_int py_float (cmd_params cmd)
          (annotation ≫= ann_arg_types) (annotation ≫= ann_arg_descriptions)).
  change (collect_args py_int py_float (cmd_params cmd)
            (annotation ≫= ann_arg_types) (annotation ≫= ann_arg_descriptions))
    with (map extract kept).
  rewrite <- Hpos, <- Hopt.
  destruct (map extract kept); reflexivity.
Qed.

(** C5 at a command that declares the flag ["+w/-w"] before its
    positional argument [input]: the display name of the flag is ["+w"],
    it does not start with a dash, and the emitted sequence keeps the
    flag in front of the positional argument. *)
Theorem flag_before_positional :
  emitted_args (_build_command decimal_int no_float cmd_plus_flag "_root" None)
  = [ _extract_arg decimal_int no_float plus_flag None None;
      _extract_arg decimal_int no_float (plain_argument "input") None None ]
  /\ is_Option plus_flag = true
  /\ is_Argument (plain_argument "input") = true
  /\ map ad_name
       (emitted_args
          (_build_command decimal_int no_float cmd_plus_flag "_root" None))
     = ["+w"; "input"].
Proof. repeat split; reflexivity. Qed.

(** ** The command tree walker *)

(** Induction on a command tree, with the property available for every
    sub-command a group can answer with. *)
Lemma Cmd_nested_ind (P : Cmd -> Prop)
    (Hbase : forall name hidden, P (BaseCommand name hidden))
    (Hcommand : forall info, P (Command info))
    (Hgroup : forall info subs,
        Forall (fun e => match snd e with Some sub => P sub | None => True end)
               subs ->
        P (Group info subs)) :
  forall cmd, P cmd.
Proof.
  fix IH 1. intros [name hidden|info|info subs];
    [ apply Hbase | apply Hcommand | ].
  apply Hgroup.
  induction subs as [|[sn [sub|]] rest IHrest]; constructor; try assumption.
  - cbn [snd]. apply IH.
  - exact I.
Qed.

Lemma visible_cons_some sn sub rest :
  omap visible_child ((sn, Some sub) :: rest) =
    if cmd_hidden sub then omap visible_child rest
    else (sn, sub) :: omap visible_child rest.
Proof.
  change (omap visible_child ((sn, Some sub) :: rest))
    with (match visible_child (sn, Some sub) with
          | Some y => y :: omap visible_child rest
          | None => omap visible_child rest
          end).
  unfold visible_child. cbn [snd fst].
  destruct (cmd_hidden sub); reflexivity.
Qed.

Lemma visible_cons_none sn rest :
  omap visible_child ((sn, None) :: rest) = omap visible_child rest.
Proof. reflexivity. Qed.

Lemma Cmd_visible_ind (P : Cmd -> Prop) :
  (forall cmd, Forall (fun e => P (snd e)) (visible_children cmd) -> P cmd) ->
  forall cmd, P cmd.
Proof.
  intros Hstep. induction cmd as [name hidden|info|info subs IH]
    using Cmd_nested_ind; try (apply Hstep; constructor).
  apply Hstep. cbn [visible_children].
  induction IH as [|e rest Hsub _ IHrest]; [ constructor | ].
  destruct e as [sn [sub|]];
    rewrite ?visible_cons_some, ?visible_cons_none; try assumption.
  cbn [snd] in Hsub.
  destruct (cmd_hidden sub); [ assumption | ].
  constructor; assumption.
Qed.

Lemma existsb_is_visible subs :
  existsb is_visible subs =
    match omap visible_child subs with [] => false | _ => true end.
Proof.
  induction subs as [|[sn [sub|]] rest IH]; [ reflexivity | | ];
    cbn [existsb]; rewrite ?visible_cons_some, ?visible_cons_none;
    unfold is_visible at 1; cbn [snd]; try assumption.
  destruct (cmd_hidden sub); cbn [negb orb]; [ assumption | reflexivity ].
Qed.

Lemma walk_commands_eq py_int py_float cmd annotations parent_path :
  _walk_commands py_int py_float cmd annotations parent_path =
    match visible_children cmd with
    | [] => [build_leaf py_int py_float annotations (parent_path, cmd)]
    | vs =>
      flat_map
        (fun e => _walk_commands py_int py_float (snd e) annotations
                    (Some (sub_path parent_path (fst e)))) vs
    end.
Proof.
  destruct cmd as [name hidden|info|info subs]; try reflexivity.
  cbn [_walk_commands visible_children]. rewrite existsb_is_visible.
  match goal with
  | |- (if _ then ?loop subs else _) = _ =>
    assert (E : forall l,
               loop l =
               flat_map
                 (fun e => _walk_commands py_int py_float (snd e) annotations
                             (Some (sub_path parent_path (fst e))))
                 (omap visible_child l))
  end.
  { induction l as [|[sn [sub|]] rest IH];
      rewrite ?visible_cons_some, ?visible_cons_none; try assumption;
      [ reflexivity | ].
    destruct (cmd_hidden sub); [ assumption | ].
    cbn [flat_map fst snd]. rewrite IH. reflexivity. }
  rewrite E. destruct (omap visible_child subs); reflexivity.
Qed.

Lemma leaves_eq cmd parent_path :
  leaves cmd parent_path =
    match visible_children cmd with
    | [] => [(parent_path, cmd)]
    | vs =>
      flat_map
        (fun e => leaves (snd e) (Some (sub_path parent_path (fst e)))) vs
    end.
Proof.
  assert (Hne : forall c p, leaves c p <> []).
  { intros [name hidden|info|info subs] p; try discriminate.
    cbn [leaves].
    match goal with |- match ?below with _ => _ end <> _ => destruct below end;
      discriminate. }
  destruct cmd as [name hidden|info|info subs]; try reflexivity.
  cbn [leaves visible_children].
  match goal with
  | |- match ?loop subs with _ => _ end = _ =>
    assert (E : forall l,
               loop l =
               flat_map
                 (fun e => leaves (snd e) (Some (sub_path parent_path (fst e))))
                 (omap visible_child l))
  end.
  { induction l as [|[sn [sub|]] rest IH];
      rewrite ?visible_cons_some, ?visible_cons_none; try assumption;
      [ reflexivity | ].
    destruct (cmd_hidden sub); [ assumption | ].
    cbn [flat_map fst snd]. rewrite IH. reflexivity. }
  rewrite E. destruct (omap visible_child subs) as [|[sn sub] vs];
    [ reflexivity | ].
  cbn [flat_map fst snd].
  destruct (leaves sub (Some (sub_path parent_path sn))) eqn:El;
    [ exfalso; exact (Hne _ _ El) | reflexivity ].
Qed.

Lemma walk_commands_build_leaves py_int py_float annotations cmd :
  forall parent_path,
    _walk_commands py_int py_float cmd annotations parent_path =
      map (build_leaf py_int py_float annotations) (leaves cmd parent_path).
Proof.
  induction cmd as [cmd IH] using Cmd_visible_ind. intros parent_path.
  rewrite walk_commands_eq, leaves_eq.
  destruct (visible_children cmd) as [|e vs]; [ reflexivity | ].
  revert IH. generalize (e :: vs). clear e vs.
  intros vs IH. induction IH as [|e vs Hsub _ IHvs]; [ reflexivity | ].
  cbn [flat_map]. rewrite map_app, Hsub, IHvs. reflexivity.
Qed.

(** C3 (amended): the walker emits exactly one descriptor per reachable
    visible leaf, depth-first, the children of a group taken in the order
    in which its [list_commands] returns their names: a node with visible
    children contributes the leaves below each of them in turn, the path
    of a child being the parent path, one space and the child name, or
    the child name alone when the accumulated path is absent or empty; a
    node without visible children (a group whose children are all hidden,
    or a node that is not a group) is itself the single leaf, named by
    the accumulated path, or ["_root"] when that path is absent or
    empty. *)
Theorem walk_commands_leaves py_int py_float (cmd : Cmd)
    (annotations : option (gmap string CommandAnnotation))
    (parent_path : option string) :
  _walk_commands py_int py_float cmd annotations parent_path
  = map (build_leaf py_int py_float annotations) (leaves cmd parent_path)
  /\ leaves cmd parent_path
     = match visible_children cmd with
       | [] => [(parent_path, cmd)]
       | vs =>
         flat_map
           (fun e => leaves (snd e) (Some (sub_path parent_path (fst e)))) vs
       end
  /\ (forall leaf,
        cd_name (build_leaf py_int py_float annotations leaf)
        = leaf_name (fst leaf))
  /\ leaf_name None = "_root"
  /\ leaf_name (Some "") = "_root"
  /\ (forall c s, leaf_name (Some (String c s)) = String c s)
  /\ (forall sn, sub_path None sn = sn /\ sub_path (Some "") sn = sn)
  /\ (forall c s sn,
        sub_path (Some (String c s)) sn = String c s +:+ " " +:+ sn).
Proof.
  split; [ apply walk_commands_build_leaves | ].
  split; [ apply leaves_eq | ].
  repeat split.
Qed.

(** C3, as stated, fails twice.  A path that has been accumulated but is
    empty is treated as no path: below a group registered under the empty
    name the command [x] is named ["x"], not [" x"], and a command
    registered under the empty name is named ["_root"], not [""].  And
    the children come in the order of [list_commands], which for a stock
    group is sorted: declared [zeta] then [alpha], emitted [alpha] then
    [zeta]. *)
Lemma walk_commands_claim_counterexample :
  (map cd_name (_walk_commands decimal_int no_float tree_empty_name None None)
   = ["x"]
   /\ map segments_name (leaf_segments tree_empty_name) = [" x"])
  /\ (map cd_name (_walk_commands decimal_int no_float tree_empty_leaf None None)
      = ["_root"]
      /\ map segments_name (leaf_segments tree_empty_leaf) = [""])
  /\ (map cd_name (_walk_commands decimal_int no_float tree_zeta_alpha None None)
      = ["alpha"; "zeta"]
      /\ map fst declared_zeta_alpha = ["zeta"; "alpha"]).
Proof. repeat split; reflexivity. Qed.

(** Scenario B, C and E of the specification. *)
Example walk_nested_groups :
  map cd_name (_walk_commands decimal_int no_float tree_nested None None)
  = ["a b c"].
Proof. reflexivity. Qed.

Example walk_hidden_command :
  map cd_name (_walk_commands decimal_int no_float tree_hidden None None)
  = ["public"].
Proof. reflexivity. Qed.

Example walk_single_command :
  map cd_name
    (_walk_commands decimal_int no_float (leaf_cmd "greet" []) None None)
  = ["_root"].
Proof. reflexivity. Qed.

(** ** Absent argument sequences *)

Lemma collect_args_nil py_int py_float params ov ad :
  collect_args py_int py_float params ov ad = [] <->
  Forall (fun param => _is_filtered_param param = true) params.
Proof.
  unfold collect_args.
  induction params as [|param params IH]; [ split; auto | ].
  rewrite filter_cons.
  destruct (_is_filtered_param param) eqn:E.
  - destruct (decide (true = false)) as [?|_]; [ discriminate | ].
    rewrite IH. split.
    + intros H. constructor; assumption.
    + intros H. inversion H; assumption.
  - destruct (decide (false = false)) as [_|?]; [ | congruence ].
    split; [ discriminate | ].
    intros H. inversion H. congruence.
Qed.

Lemma build_command_args_not_empty py_int py_float cmd name annotation :
  cd_args (_build_command py_int py_float cmd name annotation) <> Some [].
Proof.
  rewrite build_command_args.
  destruct (collect_args _ _ _ _ _) as [|a args] eqn:E; [ discriminate | ].
  intros [= Hnil].
  pose proof (partition_by_dash_perm (a :: args)) as Hperm.
  rewrite Hnil in Hperm. apply Permutation_nil in Hperm. discriminate.
Qed.

Lemma ser_command_no_args c :
  cd_args c = None -> dict_get "args" (entries (ser_command c)) = None.
Proof.
  intros Hargs. unfold ser_command. rewrite Hargs.
  destruct (cd_stdin c), (cd_stdout c), (cd_examples c); reflexivity.
Qed.

(** C10: the [args] field of a descriptor is absent exactly when the
    command has no parameter left after filtering; the serialized command
    then has no ["args"] key; and no descriptor, of any command of any
    generated schema, carries an empty [args] sequence. *)
Theorem build_command_args_absent py_int py_float (cmd : Cmd) (name : string)
    (annotation : option CommandAnnotation) :
  let c := _build_command py_int py_float cmd name annotation in
  (cd_args c = None <->
     Forall (fun param => _is_filtered_param param = true) (cmd_params cmd))
  /\ cd_args c <> Some []
  /\ (cd_args c = None ->
      dict_get "args" (entries (to_dict (obj_of_command c))) = None)
  /\ (forall cli options,
        Forall (fun c' => cd_args c' <> Some [])
               (ts_commands (generate_schema py_int py_float cli options))).
Proof.
  intros c. subst c.
  split; [ | split; [ | split ] ].
  - rewrite build_command_args.
    rewrite <- (collect_args_nil py_int py_float (cmd_params cmd)
                  (annotation ≫= ann_arg_types)
                  (annotation ≫= ann_arg_descriptions)).
    destruct (collect_args _ _ _ _ _); split;
      first [ reflexivity | discriminate ].
  - apply build_command_args_not_empty.
  - intros Hnone. rewrite to_dict_command. apply ser_command_no_args, Hnone.
  - intros cli options. unfold generate_schema. cbn [ts_commands].
    rewrite walk_commands_build_leaves. apply Forall_map, Forall_forall.
    intros leaf _. apply build_command_args_not_empty.
Qed.

Lemma build_command_args_absent_witness :
  cd_args (_build_command decimal_int no_float
             (leaf_cmd "tool" [plain_option "help" ["--help"]]) "_root" None)
  = None.
Proof.
  apply (build_command_args_absent decimal_int no_float
           (leaf_cmd "tool" [plain_option "help" ["--help"]]) "_root" None).
  repeat constructor.
Defined.

(** ** Distinct command names *)

Lemma string_app_cons (x : ascii) (a b : string) :
  String x a +:+ b = String x (a +:+ b).
Proof. reflexivity. Qed.

Lemma string_app_nil_l (b : string) : "" +:+ b = b.
Proof. reflexivity. Qed.

Lemma string_app_assoc (a b c : string) : (a +:+ b) +:+ c = a +:+ (b +:+ c).
Proof.
  induction a as [|x a IH]; [ reflexivity | ].
  rewrite !string_app_cons, IH. reflexivity.
Qed.

Lemma string_app_nil_r (a : string) : a +:+ "" = a.
Proof.
  induction a as [|x a IH]; [ reflexivity | ].
  rewrite string_app_cons, IH. reflexivity.
Qed.

Lemma string_app_not_empty (a b : string) : b <> "" -> a +:+ b <> "".
Proof.
  destruct a; [ auto | ]. rewrite string_app_cons. discriminate.
Qed.

Lemma name_ok_spec sn :
  name_ok sn = true -> sn <> "" /\ has_space sn = false.
Proof.
  unfold name_ok. intros H. apply andb_true_iff in H as [Ht Hs].
  apply negb_true_iff in Hs. split; [ | exact Hs ].
  intros ->. discriminate.
Qed.

(** Two names without a space that are followed by nothing or by a
    space, and spell the same string, are the same name. *)
Lemma names_separate (a b t1 t2 : string) :
  has_space a = false -> has_space b = false ->
  (t1 = "" \/ exists r, t1 = String " " r) ->
  (t2 = "" \/ exists r, t2 = String " " r) ->
  a +:+ t1 = b +:+ t2 -> a = b.
Proof.
  revert b. induction a as [|x a IH]; intros [|y b] Ha Hb H1 H2 E;
    rewrite ?string_app_cons, ?string_app_nil_l in E; cbn [has_space] in *.
  - reflexivity.
  - apply orb_false_iff in Hb as [Hy _].
    destruct H1 as [->|[r ->]]; [ discriminate | ].
    injection E as <- _. discriminate.
  - apply orb_false_iff in Ha as [Hx _].
    destruct H2 as [->|[r ->]]; [ discriminate | ].
    injection E as -> _. discriminate.
  - apply orb_false_iff in Ha as [_ Ha]. apply orb_false_iff in Hb as [_ Hb].
    injection E as -> E. f_equal. apply (IH b); assumption.
Qed.

Lemma extends_refl q : extends q q.
Proof. exists "". split; [ symmetry; apply string_app_nil_r | left; reflexivity ]. Qed.

Lemma extends_child q sn n : extends (q +:+ " " +:+ sn) n -> extends q n.
Proof.
  intros (t & -> & Ht). exists (" " +:+ sn +:+ t). split.
  - rewrite !string_app_assoc. reflexivity.
  - right. eexists. reflexivity.
Qed.

(** The prefix a path puts in front of the names below it. *)
Lemma sub_path_prefix parent_path :
  exists pre, forall sn, sub_path parent_path sn = pre +:+ sn.
Proof.
  unfold sub_path. destruct (path_truthy parent_path).
  - exists (or_empty parent_path +:+ " "). intros sn.
    rewrite string_app_assoc. reflexivity.
  - exists "". reflexivity.
Qed.

Lemma well_named_children cmd :
  well_named cmd = true ->
  NoDup (map fst (visible_children cmd))
  /\ Forall (fun e => name_ok (fst e) = true) (visible_children cmd)
  /\ Forall (fun e => well_named (snd e) = true) (visible_children cmd).
Proof.
  destruct cmd as [name hidden|info|info subs];
    try (intros _; repeat split; constructor).
  cbn [well_named]. intros H.
  apply andb_true_iff in H as [H Hall].
  apply andb_true_iff in H as [Hnd Hok].
  apply bool_decide_eq_true_1 in Hnd.
  split; [ exact Hnd | ]. split.
  - rewrite forallb_forall in Hok. apply Forall_forall. intros e He.
    apply Hok, in_map, list_elem_of_In, He.
  - clear Hnd Hok. cbn [visible_children].
    induction subs as [|[sn [sub|]] rest IH];
      rewrite ?visible_cons_some, ?visible_cons_none; [ constructor | | ].
    + apply andb_true_iff in Hall as [Hsub Hrest].
      destruct (cmd_hidden sub); [ apply IH, Hrest | ].
      constructor; [ exact Hsub | apply IH, Hrest ].
    + apply IH, Hall.
Qed.

Lemma path_names_eq cmd parent_path :
  path_names cmd parent_path =
    match visible_children cmd with
    | [] => [leaf_name parent_path]
    | vs =>
      flat_map
        (fun e => path_names (snd e) (Some (sub_path parent_path (fst e)))) vs
    end.
Proof.
  unfold path_names at 1. rewrite leaves_eq.
  destruct (visible_children cmd) as [|e vs]; [ reflexivity | ].
  cbn beta iota. generalize (e :: vs). clear e vs. intros vs.
  induction vs as [|e vs IH]; [ reflexivity | ].
  cbn [flat_map]. rewrite map_app, IH. reflexivity.
Qed.

Lemma path_names_extend cmd :
  well_named cmd = true ->
  forall q n, q <> "" -> n ∈ path_names cmd (Some q) -> extends q n.
Proof.
  induction cmd as [cmd IH] using Cmd_visible_ind.
  intros Hwn q n Hq Hin. rewrite path_names_eq in Hin.
  destruct (well_named_children cmd Hwn) as (_ & Hok & Hsub).
  destruct (visible_children cmd) as [|e vs] eqn:Evs.
  - apply list_elem_of_singleton in Hin. subst n.
    unfold leaf_name. destruct q; [ congruence | ]. apply extends_refl.
  - apply list_elem_of_In, in_flat_map in Hin as ([sn sub] & He & Hn).
    apply list_elem_of_In in He, Hn.
    rewrite Forall_forall in IH, Hok, Hsub.
    cbn [fst snd] in Hn.
    assert (Hpath : sub_path (Some q) sn = q +:+ " " +:+ sn).
    { unfold sub_path. destruct q; [ congruence | reflexivity ]. }
    rewrite Hpath in Hn.
    apply (extends_child q sn).
    apply (IH (sn, sub) He (Hsub _ He)); [ | exact Hn ].
    apply string_app_not_empty. discriminate.
Qed.

Lemma NoDup_flat_map_keys {A : Type} (g : string * A -> list string)
    (vs : list (string * A)) :
  NoDup (map fst vs) ->
  (forall e, e ∈ vs -> NoDup (g e)) ->
  (forall e1 e2 n, e1 ∈ vs -> e2 ∈ vs -> n ∈ g e1 -> n ∈ g e2 ->
                   fst e1 = fst e2) ->
  NoDup (flat_map g vs).
Proof.
  induction vs as [|e vs IH]; intros Hnd Heach Hkeys; [ constructor | ].
  cbn [flat_map map] in *. apply NoDup_cons in Hnd as [Hfresh Hnd].
  apply NoDup_app. split; [ | split ].
  - apply Heach. left.
  - intros n Hn1 Hn2.
    apply list_elem_of_In, in_flat_map in Hn2 as (e' & He' & Hn2).
    apply list_elem_of_In in He', Hn2.
    apply Hfresh. rewrite (Hkeys e e' n); [ | left | right | | ]; try assumption.
    apply list_elem_of_fmap. exists e'. split; [ reflexivity | exact He' ].
  - apply IH; [ exact Hnd | | ].
    + intros e' He'. apply Heach. right. exact He'.
    + intros e1 e2 n H1 H2. apply Hkeys; right; assumption.
Qed.

Lemma path_names_NoDup cmd :
  well_named cmd = true -> forall parent_path, NoDup (path_names cmd parent_path).
Proof.
  induction cmd as [cmd IH] using Cmd_visible_ind.
  intros Hwn parent_path. rewrite path_names_eq.
  destruct (well_named_children cmd Hwn) as (Hnd & Hok & Hsub).
  destruct (visible_children cmd) as [|e vs] eqn:Evs.
  - apply NoDup_singleton.
  - revert IH Hnd Hok Hsub. generalize (e :: vs). clear e vs Evs.
    intros vs IH Hnd Hok Hsub.
    rewrite Forall_forall in IH, Hok, Hsub.
    destruct (sub_path_prefix parent_path) as (pre & Hpre).
    apply NoDup_flat_map_keys; [ exact Hnd | | ].
    + intros e He. apply (IH e He (Hsub e He)).
    + intros [sn1 sub1] [sn2 sub2] n H1 H2 Hn1 Hn2. cbn [fst snd] in *.
      destruct (name_ok_spec sn1 (Hok _ H1)) as (Hne1 & Hsp1).
      destruct (name_ok_spec sn2 (Hok _ H2)) as (Hne2 & Hsp2).
      rewrite Hpre in Hn1, Hn2.
      apply (path_names_extend sub1 (Hsub _ H1)) in Hn1
        as (t1 & E1 & Ht1); [ | apply string_app_not_empty, Hne1 ].
      apply (path_names_extend sub2 (Hsub _ H2)) in Hn2
        as (t2 & E2 & Ht2); [ | apply string_app_not_empty, Hne2 ].
      rewrite E1, !string_app_assoc in E2.
      apply String.app_inj in E2.
      apply (names_separate sn1 sn2 t1 t2); assumption.
Qed.

Lemma walk_commands_names py_int py_float cmd annotations parent_path :
  map cd_name (_walk_commands py_int py_float cmd annotations parent_path)
  = path_names cmd parent_path.
Proof.
  rewrite walk_commands_build_leaves, map_map. reflexivity.
Qed.

(** C6 (amended): on a tree that is well named (at every group reached
    through visible children, the visible children have pairwise distinct
    names, none empty, none with a space) the names of the emitted
    descriptors are pairwise distinct, for the walker started at the root
    and for the commands of the generated schema. *)
Theorem walk_commands_names_distinct py_int py_float (cmd : Cmd)
    (annotations : option (gmap string CommandAnnotation))
    (options : option DescribeOptions) :
  well_named cmd = true ->
  NoDup (map cd_name (_walk_commands py_int py_float cmd annotations None))
  /\ NoDup (map cd_name
              (ts_commands (generate_schema py_int py_float cmd options))).
Proof.
  intros Hwn. unfold generate_schema. cbn [ts_commands].
  rewrite !walk_commands_names. split; apply path_names_NoDup, Hwn.
Qed.

Lemma walk_commands_names_distinct_witness :
  map cd_name (_walk_commands decimal_int no_float tree_auth None None)
  = ["auth login"; "auth logout"; "run"]
  /\ NoDup (map cd_name
              (_walk_commands decimal_int no_float tree_auth None None)).
Proof.
  split; [ reflexivity | ].
  apply (walk_commands_names_distinct decimal_int no_float tree_auth
           None None).
  reflexivity.
Defined.

(** C6, as stated, fails: a child registered as ["a b"] next to a group
    [a] with a child [b] gives two descriptors named ["a b"]. *)
Lemma walk_commands_names_counterexample :
  map cd_name (_walk_commands decimal_int no_float tree_clash None None)
  = ["a b"; "a b"]
  /\ ~ NoDup (map cd_name
               (_walk_commands decimal_int no_float tree_clash None None)).
Proof.
  split; [ reflexivity | ].
  intros H. change (NoDup ["a b"; "a b"]) in H.
  apply NoDup_cons in H as [H _]. apply H. left.
Qed.

(** * Further properties of the engine *)

(** ** Display names *)

Lemma max_by_len_spec (best : string) (rest : list string) :
  let r := max_by_len best rest in
  (forall o, o ∈ best :: rest -> String.length o <= String.length r)
  /\ exists pre suf,
       best :: rest = pre ++ r :: suf
       /\ Forall (fun o => String.length o < String.length r) pre.
Proof.
  revert best. induction rest as [|x rest IH]; intros best; cbn [max_by_len].
  - split.
    + intros o Ho. apply list_elem_of_singleton in Ho. subst o. lia.
    + exists [], []. split; [ reflexivity | constructor ].
  - destruct (Nat.ltb_spec (String.length best) (String.length x)) as [Hlt|Hge].
    + destruct (IH x) as (Hmax & pre & suf & Heq & Hpre).
      assert (Hx : String.length x <= String.length (max_by_len x rest))
        by (apply Hmax; left).
      revert Hmax Heq Hpre Hx. generalize (max_by_len x rest). intros r.
      intros Hmax Heq Hpre Hx.
      split.
      * intros o Ho. apply elem_of_cons in Ho as [->|Ho]; [ lia | auto ].
      * exists (best :: pre), suf. split; [ cbn; rewrite Heq; reflexivity | ].
        constructor; [ lia | exact Hpre ].
    + destruct (IH best) as (Hmax & pre & suf & Heq & Hpre).
      assert (Hb : String.length best <= String.length (max_by_len best rest))
        by (apply Hmax; left).
      revert Hmax Heq Hpre Hb. generalize (max_by_len best rest). intros r.
      intros Hmax Heq Hpre Hb.
      split.
      * intros o Ho. apply elem_of_cons in Ho as [->|Ho]; [ exact Hb | ].
        apply elem_of_cons in Ho as [->|Ho]; [ lia | ].
        apply Hmax. right. exact Ho.
      * destruct pre as [|b pre]; cbn [app] in Heq; injection Heq as Hb' Hrest.
        -- exists [], (x :: suf). split; [ | constructor ].
           cbn [app]. rewrite <- Hb', Hrest. reflexivity.
        -- exists (b :: x :: pre), suf. split.
           ++ cbn [app]. rewrite <- Hb', Hrest. reflexivity.
           ++ apply Forall_cons in Hpre as [Hbl Hpre].
              constructor; [ exact Hbl | ].
              constructor; [ subst b; lia | exact Hpre ].
Qed.

(** X1: when an option declares at least one option string, its display
    name is one of them, none is longer, and every one declared before it
    is strictly shorter: the first of the longest, primary option strings
    coming before secondary ones. *)
Theorem option_display_name_longest (param : Param) :
  p_opts param ++ p_secondary_opts param <> [] ->
  let d := _option_display_name param in
  (forall o, o ∈ p_opts param ++ p_secondary_opts param ->
             String.length o <= String.length d)
  /\ exists pre suf,
       p_opts param ++ p_secondary_opts param = pre ++ d :: suf
       /\ Forall (fun o => String.length o < String.length d) pre.
Proof.
  intros Hne d. subst d. unfold _option_display_name.
  destruct (p_opts param ++ p_secondary_opts param) as [|o rest];
    [ congruence | ].
  apply max_by_len_spec.
Qed.

Lemma option_display_name_longest_witness :
  _option_display_name (plain_option "format" ["-f"; "--format"; "--fmt"])
  = "--format"
  /\ String.length "--fmt"
     <= String.length
          (_option_display_name
             (plain_option "format" ["-f"; "--format"; "--fmt"])).
Proof.
  split; [ reflexivity | ].
  apply (option_display_name_longest
           (plain_option "format" ["-f"; "--format"; "--fmt"]));
    [ discriminate | ].
  cbn. right. right. left.
Defined.

(** ** The type tags *)

(** X2: without an explicit override for the parameter, the inferred
    type is one of the seven tags of the schema. *)
Theorem infer_type_tag (param : Param)
    (type_overrides : option (gmap string string)) :
  override_of type_overrides (or_empty (p_name param)) = None ->
  fst (_infer_type param type_overrides) ∈ mtp_types.
Proof.
  intros Hov. unfold _infer_type, mtp_types. rewrite Hov.
  destruct (is_Option param && p_is_flag param); cbn [fst];
    [ set_solver | ].
  destruct (p_type param);
    repeat match goal with
           | |- context [ if ?b then _ else _ ] => destruct b
           end; cbn [fst]; set_solver.
Qed.

Lemma infer_type_tag_witness :
  fst (_infer_type (with_type Path (plain_argument "target")) None)
  ∈ mtp_types.
Proof.
  apply (infer_type_tag (with_type Path (plain_argument "target")) None).
  reflexivity.
Defined.

(** ** Descriptions and empty fields *)

Lemma extract_arg_name py_int py_float param ov ad :
  ad_name (_extract_arg py_int py_float param ov ad) = display_name param.
Proof. unfold _extract_arg. destruct (_infer_type param ov); reflexivity. Qed.

(** X3: the description overrides of an annotation have no effect on an
    option: its descriptor is the same whatever [arg_descriptions] is. *)
Theorem option_ignores_arg_descriptions py_int py_float (param : Param)
    (type_overrides ad1 ad2 : option (gmap string string)) :
  is_Option param = true ->
  _extract_arg py_int py_float param type_overrides ad1
  = _extract_arg py_int py_float param type_overrides ad2.
Proof.
  intros Hopt. unfold _extract_arg. rewrite Hopt.
  destruct (_infer_type param type_overrides). reflexivity.
Qed.

Lemma option_ignores_arg_descriptions_witness :
  _extract_arg decimal_int no_float port_option None
    (Some {[ "port" := "Port to listen on" ]})
  = _extract_arg decimal_int no_float port_option None None.
Proof.
  apply (option_ignores_arg_descriptions decimal_int no_float port_option).
  reflexivity.
Defined.

(** X4: the four optional fields that the builders set behind a
    truthiness test are never empty when present: an argument never has
    an empty description or an empty [values] list, and a command never
    has an empty [args] or an empty [examples] list.  (Defaults and the
    I/O descriptors of an annotation are passed on as they are.) *)
Theorem no_empty_optional_fields py_int py_float (param : Param)
    (type_overrides arg_descriptions : option (gmap string string))
    (cmd : Cmd) (name : string) (annotation : option CommandAnnotation) :
  ad_description
    (_extract_arg py_int py_float param type_overrides arg_descriptions)
  <> Some ""
  /\ ad_values
       (_extract_arg py_int py_float param type_overrides arg_descriptions)
     <> Some []
  /\ cd_args (_build_command py_int py_float cmd name annotation)
     <> Some []
  /\ cd_examples (_build_command py_int py_float cmd name annotation)
     <> Some [].
Proof.
  split; [ | split; [ | split ] ].
  - unfold _extract_arg. destruct (_infer_type param type_overrides).
    cbn [ad_description].
    match goal with
    | |- match ?d with _ => _ end <> _ => destruct d as [[|? ?]|]
    end; discriminate.
  - rewrite extract_arg_values.
    destruct (snd (_infer_type param type_overrides)) as [[|v vs]|];
      discriminate.
  - apply build_command_args_not_empty.
  - unfold _build_command. cbn [cd_examples].
    destruct (annotation ≫= ann_examples) as [[|e es]|]; discriminate.
Qed.

(** ** More on the walker *)

Lemma leaves_not_empty cmd parent_path : leaves cmd parent_path <> [].
Proof.
  rewrite leaves_eq.
  destruct (visible_children cmd) as [|[sn sub] vs]; [ discriminate | ].
  cbn [flat_map fst snd]. intros H. apply app_eq_nil in H as [H _].
  revert H. destruct sub as [name hidden|info|info subs]; try discriminate.
  cbn [leaves].
  match goal with |- match ?below with _ => _ end = _ -> _ => destruct below end;
    discriminate.
Qed.

(** X5: the walker returns at least one descriptor for every tree, so
    the [commands] of a generated schema are never empty. *)
Theorem walk_commands_not_empty py_int py_float (cmd : Cmd)
    (annotations : option (gmap string CommandAnnotation))
    (parent_path : option string) (options : option DescribeOptions) :
  _walk_commands py_int py_float cmd annotations parent_path <> []
  /\ ts_commands (generate_schema py_int py_float cmd options) <> [].
Proof.
  unfold generate_schema. cbn [ts_commands].
  rewrite !walk_commands_build_leaves.
  split; intros H; apply map_eq_nil in H; exact (leaves_not_empty _ _ H).
Qed.

Lemma visible_children_drop_invisible cmd :
  visible_children (drop_invisible cmd) = visible_children cmd.
Proof.
  destruct cmd as [name hidden|info|info subs]; try reflexivity.
  cbn [drop_invisible visible_children].
  induction subs as [|[sn [sub|]] rest IH]; [ reflexivity | | ];
    rewrite filter_cons;
    destruct (decide (is_visible _ = true)) as [Hv|Hv];
    unfold is_visible in Hv; cbn [snd] in Hv;
    rewrite ?visible_cons_some, ?visible_cons_none;
    try discriminate Hv; try exact IH.
  - destruct (cmd_hidden sub); [ discriminate Hv | ].
    rewrite IH. reflexivity.
  - destruct (cmd_hidden sub); [ exact IH | ].
    exfalso. apply Hv. reflexivity.
Qed.

(** X6: the entries of a group that are hidden, or for which
    [get_command] answers nothing, have no effect: the walker returns the
    same descriptors when they are left out. *)
Theorem walk_commands_drop_invisible py_int py_float (cmd : Cmd)
    (annotations : option (gmap string CommandAnnotation))
    (parent_path : option string) :
  _walk_commands py_int py_float (drop_invisible cmd) annotations parent_path
  = _walk_commands py_int py_float cmd annotations parent_path.
Proof.
  rewrite !walk_commands_eq, visible_children_drop_invisible.
  destruct (visible_children cmd) eqn:E; [ | reflexivity ].
  destruct cmd as [name hidden|info|info subs]; reflexivity.
Qed.





Lemma map_name_filter_dash (b : bool) (args : list ArgDescriptor) :
  map ad_name (filter (fun a => starts_with_dash (ad_name a) = b) args)
  = filter (fun s => starts_with_dash s = b) (map ad_name args).
Proof.
  induction args as [|a args IH]; [ reflexivity | ].
  cbn [map]. rewrite !filter_cons.
  destruct (decide (starts_with_dash (ad_name a) = b));
    cbn [map]; rewrite IH; reflexivity.
Qed.

Lemma partition_names (args : list ArgDescriptor) :
  map ad_name
      (default []
         (match args with
          | [] => None
          | a :: l =>
            let args' := a :: l in
            Some (positional_of args' ++ options_of args')
          end))
  = filter (fun s => starts_with_dash s = false) (map ad_name args)
    ++ filter (fun s => starts_with_dash s = true) (map ad_name args).
Proof.
  destruct args as [|a args]; [ reflexivity | ].
  cbn [default from_option id]. cbv zeta. unfold positional_of, options_of.
  rewrite map_app, !map_name_filter_dash. reflexivity.
Qed.

Lemma build_command_arg_names py_int py_float cmd name annotation :
  map ad_name (emitted_args (_build_command py_int py_float cmd name annotation))
  = let names :=
      map display_name
          (filter (fun param => _is_filtered_param param = false)
                  (cmd_params cmd)) in
    filter (fun s => starts_with_dash s = false) names
    ++ filter (fun s => starts_with_dash s = true) names.
Proof.
  unfold emitted_args. rewrite build_command_args, partition_names.
  unfold collect_args. cbn zeta. rewrite map_map.
  rewrite (map_ext _ display_name); [ reflexivity | ].
  intros param. apply extract_arg_name.
Qed.

(** X9: annotations never change which commands a tree yields, what they
    are called, or which arguments each one lists under which display
    name and in which order. *)
Theorem walk_commands_names_fixed py_int py_float (cmd : Cmd)
    (a1 a2 : option (gmap string CommandAnnotation))
    (parent_path : option string) :
  map (fun c => (cd_name c, map ad_name (emitted_args c)))
      (_walk_commands py_int py_float cmd a1 parent_path)
  = map (fun c => (cd_name c, map ad_name (emitted_args c)))
        (_walk_commands py_int py_float cmd a2 parent_path).
Proof.
  rewrite !walk_commands_build_leaves, !map_map.
  apply map_ext. intros leaf. unfold build_leaf.
  rewrite !build_command_arg_names. reflexivity.
Qed.

(** ** The describe flag *)

Lemma build_command_with_describe py_int py_float cli options name annotation :
  _build_command py_int py_float (with_describe cli options) name annotation
  = _build_command py_int py_float cli name annotation.
Proof.
  destruct cli as [n h|info|info subs]; reflexivity.
Qed.

Lemma walk_commands_with_describe py_int py_float cli options annotations
    parent_path :
  _walk_commands py_int py_float (with_describe cli options) annotations
    parent_path
  = _walk_commands py_int py_float cli annotations parent_path.
Proof.
  rewrite !walk_commands_eq.
  assert (Hvis : visible_children (with_describe cli options)
                 = visible_children cli)
    by (destruct cli; reflexivity).
  rewrite Hvis. destruct (visible_children cli); [ | reflexivity ].
  unfold build_leaf. cbn [fst snd].
  rewrite build_command_with_describe. reflexivity.
Qed.

(** X10: registering the describe flag does not show in the schema: the
    schema of the command returned by [with_describe] is the schema of
    the command as it was, whatever the command and the options. *)
Theorem with_describe_invisible py_int py_float
    (cli : Cmd) (options options' : option DescribeOptions) :
  describe py_int py_float (with_describe cli options') options
  = describe py_int py_float cli options.
Proof.
  unfold describe, generate_schema.
  rewrite walk_commands_with_describe.
  destruct cli as [n h|info|info subs]; reflexivity.
Qed.

(** ** The shape of the serialized schema *)

(** X11: the serialized schema of every tool has the keys [name],
    [version], [description], [specVersion] and [commands], in that
    order, followed by [auth] exactly when the options carry an auth
    configuration; [specVersion] is always the engine's constant and
    [commands] holds the serialized descriptors in the walker's order. *)
Theorem generate_schema_serialized py_int py_float (cli : Cmd)
    (options : option DescribeOptions) :
  let s := generate_schema py_int py_float cli options in
  to_dict (obj_of_schema s)
  = VDict ([ ("name", VStr (ts_name s));
             ("version", VStr (ts_version s));
             ("description", VStr (ts_description s));
             ("specVersion", VStr "2026-02-07");
             ("commands", VList (map ser_command (ts_commands s))) ]
           ++ match options ≫= opt_auth with
              | Some a => [("auth", to_dict (obj_of_auth a))]
              | None => []
              end).
Proof.
  intros s. subst s. rewrite to_dict_schema. unfold ser_schema.
  unfold generate_schema at 4 6. cbn [ts_spec_version ts_auth].
  unfold field at 1 2 3 4 5. cbn [is_None app].
  do 6 f_equal.
  destruct (options ≫= opt_auth) as [a|]; [ | reflexivity ].
  unfold field. rewrite to_dict_auth. reflexivity.
Qed.

(** ** Serializing twice, and the key conversion *)

(** X12: [to_dict] is idempotent: what it returns holds no dataclass
    instance on its own or as an element of a list, at any depth of list
    nesting, so serializing it again changes nothing. *)
Theorem to_dict_idempotent : forall obj, to_dict (to_dict obj) = to_dict obj.
Proof.
  fix IH 1. intros [| |b|z|f|s|xs|xs|kvs|cls fs]; try reflexivity.
  - cbn [to_dict]. f_equal. rewrite map_map.
    induction xs as [|x xs IHxs]; [ reflexivity | ].
    cbn [map]. f_equal; [ apply IH | exact IHxs ].
  - rewrite to_dict_VData.
    destruct (String.eqb cls "AuthConfig"); [ | reflexivity ].
    destruct (dict_get "extra" fs) as [[| | | | | | | |[|kv kvs]|]|];
      reflexivity.
Qed.

Lemma split_underscore_parts s :
  Forall (fun part => has_underscore part = false) (split_underscore s)
  /\ split_underscore s <> [].
Proof.
  induction s as [|c s [IH Hne]]; cbn [split_underscore].
  - split; [ repeat constructor | discriminate ].
  - destruct (Ascii.eqb c "_") eqn:Ec.
    + split; [ constructor; [ reflexivity | exact IH ] | discriminate ].
    + destruct (split_underscore s) as [|part parts]; [ congruence | ].
      split; [ | discriminate ].
      apply Forall_cons in IH as [Hpart Hparts].
      constructor; [ | exact Hparts ].
      cbn [has_underscore]. rewrite Ec, Hpart. reflexivity.
Qed.

Lemma split_underscore_none s :
  has_underscore s = false -> split_underscore s = [s].
Proof.
  induction s as [|c s IH]; cbn [split_underscore has_underscore];
    [ reflexivity | ].
  intros H. apply orb_false_iff in H as [Hc Hs].
  rewrite Hc, (IH Hs). reflexivity.
Qed.

Lemma upper_char_not_underscore c :
  Ascii.eqb c "_" = false -> Ascii.eqb (upper_char c) "_" = false.
Proof.
  destruct c as [[] [] [] [] [] [] [] []]; intros H;
    first [ discriminate H | reflexivity ].
Qed.

Lemma lower_char_not_underscore c :
  Ascii.eqb c "_" = false -> Ascii.eqb (lower_char c) "_" = false.
Proof.
  destruct c as [[] [] [] [] [] [] [] []]; intros H;
    first [ discriminate H | reflexivity ].
Qed.

Lemma lower_no_underscore s :
  has_underscore s = false -> has_underscore (lower s) = false.
Proof.
  induction s as [|c s IH]; cbn [lower has_underscore]; [ reflexivity | ].
  intros H. apply orb_false_iff in H as [Hc Hs].
  rewrite (lower_char_not_underscore c Hc), (IH Hs). reflexivity.
Qed.

Lemma capitalize_no_underscore s :
  has_underscore s = false -> has_underscore (capitalize s) = false.
Proof.
  destruct s as [|c s]; cbn [capitalize has_underscore]; [ reflexivity | ].
  intros H. apply orb_false_iff in H as [Hc Hs].
  rewrite (upper_char_not_underscore c Hc), (lower_no_underscore s Hs).
  reflexivity.
Qed.

Lemma has_underscore_app a b :
  has_underscore (a +:+ b) = has_underscore a || has_underscore b.
Proof.
  induction a as [|c a IH]; [ reflexivity | ].
  rewrite string_app_cons. cbn [has_underscore]. rewrite IH.
  apply orb_assoc.
Qed.

Lemma concat_no_underscore (parts : list string) :
  Forall (fun part => has_underscore part = false) parts ->
  has_underscore (String.concat "" parts) = false.
Proof.
  induction 1 as [|part parts Hpart Hparts IH]; [ reflexivity | ].
  cbn [String.concat]. destruct parts as [|part' parts']; [ exact Hpart | ].
  rewrite !has_underscore_app, Hpart, IH. reflexivity.
Qed.

(** X13: a converted key never contains an underscore, and a name
    without an underscore is converted to itself; so converting twice is
    converting once. *)
Theorem snake_to_camel_no_underscore (name : string) :
  has_underscore (_snake_to_camel name) = false
  /\ (has_underscore name = false -> _snake_to_camel name = name)
  /\ _snake_to_camel (_snake_to_camel name) = _snake_to_camel name.
Proof.
  assert (Hnone : forall s, has_underscore s = false -> _snake_to_camel s = s).
  { intros s Hs. unfold _snake_to_camel.
    rewrite (split_underscore_none s Hs). cbn [map String.concat].
    apply string_app_nil_r. }
  assert (Hout : has_underscore (_snake_to_camel name) = false).
  { unfold _snake_to_camel.
    destruct (split_underscore_parts name) as [Hparts _].
    destruct (split_underscore name) as [|first parts]; [ reflexivity | ].
    apply Forall_cons in Hparts as [Hfirst Hparts].
    rewrite has_underscore_app, Hfirst. cbn [orb].
    apply concat_no_underscore.
    apply Forall_forall. intros part Hin.
    apply list_elem_of_In, in_map_iff in Hin as (p & <- & Hp).
    apply capitalize_no_underscore.
    rewrite Forall_forall in Hparts. apply Hparts, list_elem_of_In, Hp. }
  split; [ exact Hout | ]. split; [ apply Hnone | apply Hnone, Hout ].
Qed.

Lemma snake_to_camel_no_underscore_witness :
  _snake_to_camel "specVersion" = "specVersion".
Proof.
  destruct (snake_to_camel_no_underscore "specVersion") as (_ & H & _).
  apply H. reflexivity.
Defined.

(** ** Help texts *)

Lemma first_line_no_newline s : has_newline (first_line s) = false.
Proof.
  induction s as [|c s IH]; [ reflexivity | ].
  cbn [first_line]. destruct (Ascii.eqb c "010") eqn:E; [ reflexivity | ].
  cbn [has_newline]. rewrite E, IH. reflexivity.
Qed.

Lemma lstrip_no_newline s :
  has_newline s = false -> has_newline (lstrip s) = false.
Proof.
  induction s as [|c s IH]; [ reflexivity | ].
  cbn [lstrip]. intros H. destruct (is_space c); [ | exact H ].
  cbn [has_newline] in H. apply orb_false_iff in H as [_ H]. auto.
Qed.

Lemma rstrip_no_newline s :
  has_newline s = false -> has_newline (rstrip s) = false.
Proof.
  induction s as [|c s IH]; [ reflexivity | ].
  cbn [rstrip has_newline]. intros H. apply orb_false_iff in H as [Hc Hs].
  specialize (IH Hs).
  destruct (rstrip s) as [|c' r'].
  - destruct (is_space c); [ reflexivity | ].
    cbn [has_newline]. rewrite Hc. reflexivity.
  - cbn [has_newline] in *. rewrite Hc. exact IH.
Qed.

Lemma lstrip_first s : first_is_space (lstrip s) = false.
Proof.
  induction s as [|c s IH]; [ reflexivity | ].
  cbn [lstrip]. destruct (is_space c) eqn:E; [ exact IH | ].
  cbn [first_is_space]. exact E.
Qed.

Lemma rstrip_last s : last_is_space (rstrip s) = false.
Proof.
  induction s as [|c s IH]; [ reflexivity | ].
  cbn [rstrip]. destruct (rstrip s) as [|c' r'] eqn:E.
  - destruct (is_space c) eqn:Ec; [ reflexivity | ].
    cbn [last_is_space]. exact Ec.
  - cbn [last_is_space] in *. exact IH.
Qed.

Lemma rstrip_first s :
  first_is_space s = false -> first_is_space (rstrip s) = false.
Proof.
  destruct s as [|c s]; [ reflexivity | ].
  cbn [first_is_space rstrip]. intros Hc.
  destruct (rstrip s); [ rewrite Hc | ]; cbn [first_is_space]; exact Hc.
Qed.

Lemma strip_clean s :
  first_is_space (strip s) = false /\ last_is_space (strip s) = false.
Proof.
  unfold strip. split; [ apply rstrip_first, lstrip_first | apply rstrip_last ].
Qed.

Lemma short_help_clean help :
  has_newline (short_help help) = false
  /\ first_is_space (short_help help) = false
  /\ last_is_space (short_help help) = false.
Proof.
  unfold short_help. destruct (or_empty help) as [|c s] eqn:E; cbn [str_truthy].
  - repeat split.
  - split; [ | apply strip_clean ].
    unfold strip at 1. apply rstrip_no_newline, lstrip_no_newline.
    apply first_line_no_newline.
Qed.

(** X14: the description of every command, and of the tool, is a single
    line without surrounding whitespace: it holds no newline and neither
    starts nor ends with a whitespace character. *)
Theorem descriptions_single_line py_int py_float (cmd : Cmd) (name : string)
    (annotation : option CommandAnnotation)
    (options : option DescribeOptions) :
  let d := cd_description (_build_command py_int py_float cmd name annotation) in
  let t := ts_description (generate_schema py_int py_float cmd options) in
  (has_newline d = false /\ first_is_space d = false /\ last_is_space d = false)
  /\ (has_newline t = false /\ first_is_space t = false
      /\ last_is_space t = false).
Proof.
  cbn zeta. unfold _build_command, generate_schema.
  cbn [cd_description ts_description].
  destruct (cmd_info cmd) as [info|];
    split; first [ apply short_help_clean | repeat split ].
Qed.

(** ** Names as chains of child names *)

Lemma leaf_segments_eq cmd :
  leaf_segments cmd =
    match visible_children cmd with
    | [] => [[]]
    | vs => flat_map (fun e => map (cons (fst e)) (leaf_segments (snd e))) vs
    end.
Proof.
  assert (Hne : forall c, leaf_segments c <> []).
  { intros [name hidden|info|info subs]; try discriminate.
    cbn [leaf_segments].
    match goal with |- match ?below with _ => _ end <> _ => destruct below end;
      discriminate. }
  destruct cmd as [name hidden|info|info subs]; try reflexivity.
  cbn [leaf_segments visible_children].
  match goal with
  | |- match ?loop subs with _ => _ end = _ =>
    assert (E : forall l,
               loop l =
               flat_map (fun e => map (cons (fst e)) (leaf_segments (snd e)))
                        (omap visible_child l))
  end.
  { induction l as [|[sn [sub|]] rest IH];
      rewrite ?visible_cons_some, ?visible_cons_none; try assumption;
      [ reflexivity | ].
    destruct (cmd_hidden sub); [ assumption | ].
    cbn [flat_map fst snd]. rewrite IH. reflexivity. }
  rewrite E. destruct (omap visible_child subs) as [|[sn sub] vs];
    [ reflexivity | ].
  cbn [flat_map fst snd].
  destruct (leaf_segments sub) eqn:El; [ exfalso; exact (Hne _ El) | ].
  reflexivity.
Qed.

Lemma concat_space_snoc (pre : list string) (sn : string) :
  pre <> [] ->
  String.concat " " (pre ++ [sn]) = String.concat " " pre +:+ " " +:+ sn.
Proof.
  induction pre as [|x pre IH]; [ congruence | ]. intros _.
  destruct pre as [|y pre]; [ reflexivity | ].
  change (String.concat " " ((x :: y :: pre) ++ [sn]))
    with (x +:+ " " +:+ String.concat " " ((y :: pre) ++ [sn])).
  rewrite IH by discriminate.
  change (String.concat " " (x :: y :: pre))
    with (x +:+ " " +:+ String.concat " " (y :: pre)).
  rewrite !string_app_assoc. reflexivity.
Qed.

Lemma concat_space_not_empty (pre : list string) :
  pre <> [] -> Forall (fun s => s <> "") pre -> String.concat " " pre <> "".
Proof.
  destruct pre as [|x pre]; [ congruence | ]. intros _ H.
  apply Forall_cons in H as [Hx _].
  destruct x as [|c x]; [ congruence | ].
  destruct pre; [ discriminate | ].
  change (String.concat " " (String c x :: s :: pre))
    with (String c (x +:+ " " +:+ String.concat " " (s :: pre))).
  discriminate.
Qed.

Lemma sub_path_segments (pre : list string) (sn : string) :
  Forall (fun s => s <> "") pre ->
  Some (sub_path (path_of_segments pre) sn) = path_of_segments (pre ++ [sn]).
Proof.
  intros Hpre. destruct pre as [|x pre]; [ reflexivity | ].
  assert (Hne : String.concat " " (x :: pre) <> "")
    by (apply concat_space_not_empty; [ discriminate | exact Hpre ]).
  change (path_of_segments ((x :: pre) ++ [sn]))
    with (Some (String.concat " " ((x :: pre) ++ [sn]))).
  rewrite concat_space_snoc by discriminate.
  cbn [path_of_segments]. unfold sub_path, path_truthy.
  destruct (String.concat " " (x :: pre)); [ congruence | reflexivity ].
Qed.

Lemma leaf_name_segments (pre : list string) :
  Forall (fun s => s <> "") pre ->
  leaf_name (path_of_segments pre) = segments_name pre.
Proof.
  intros Hpre. destruct pre as [|x pre]; [ reflexivity | ].
  assert (Hne : String.concat " " (x :: pre) <> "")
    by (apply concat_space_not_empty; [ discriminate | exact Hpre ]).
  cbn [path_of_segments segments_name]. unfold leaf_name, path_truthy.
  destruct (String.concat " " (x :: pre)); [ congruence | reflexivity ].
Qed.

Lemma path_names_segments cmd :
  well_named cmd = true ->
  forall pre, Forall (fun s => s <> "") pre ->
    path_names cmd (path_of_segments pre)
    = map (fun segs => segments_name (pre ++ segs)) (leaf_segments cmd).
Proof.
  induction cmd as [cmd IH] using Cmd_visible_ind.
  intros Hwn pre Hpre. rewrite path_names_eq, leaf_segments_eq.
  destruct (well_named_children cmd Hwn) as (_ & Hok & Hsub).
  destruct (visible_children cmd) as [|e vs].
  - cbn [map]. rewrite app_nil_r, leaf_name_segments by exact Hpre.
    reflexivity.
  - revert IH Hok Hsub. generalize (e :: vs). clear e vs. intros vs IH Hok Hsub.
    induction vs as [|[sn sub] vs IHvs]; [ reflexivity | ].
    apply Forall_cons in IH as [IHe IH].
    apply Forall_cons in Hok as [Hoke Hok].
    apply Forall_cons in Hsub as [Hsube Hsub].
    cbn [flat_map fst snd] in *.
    rewrite map_app, (IHvs IH Hok Hsub). f_equal.
    rewrite sub_path_segments by exact Hpre.
    rewrite (IHe Hsube (pre ++ [sn])).
    + rewrite map_map. apply map_ext. intros segs.
      rewrite <- app_assoc. reflexivity.
    + apply Forall_app. split; [ exact Hpre | ].
      constructor; [ | constructor ].
      apply name_ok_spec in Hoke. apply Hoke.
Qed.

(** X15: on a well-named tree the name of every descriptor is the chain
    of child names from the root to its leaf, joined by single spaces,
    and ["_root"] for the empty chain; the descriptors come in the
    depth-first order of those chains. *)
Theorem walk_commands_names_segments py_int py_float (cmd : Cmd)
    (annotations : option (gmap string CommandAnnotation)) :
  well_named cmd = true ->
  map cd_name (_walk_commands py_int py_float cmd annotations None)
  = map segments_name (leaf_segments cmd).
Proof.
  intros Hwn. rewrite walk_commands_names.
  apply (path_names_segments cmd Hwn []). constructor.
Qed.

Lemma walk_commands_names_segments_witness :
  map cd_name (_walk_commands decimal_int no_float tree_nested None None)
  = map segments_name [["a"; "b"; "c"]].
Proof.
  apply (walk_commands_names_segments decimal_int no_float tree_nested None).
  reflexivity.
Defined.

(** ** Ordering by kind *)

Lemma emitted_args_by_kind_witness :
  map ad_name
    (emitted_args (_build_command decimal_int no_float cmd_mixed "_root" None))
  = ["src"; "dst"; "--force"; "--mode"].
Proof.
  rewrite (emitted_args_by_kind decimal_int no_float cmd_mixed "_root" None).
  - reflexivity.
  - repeat constructor.
Defined.
